(** * pso_multidiff: the stellar-mass-function model fitted by the swarm

    A shallow embedding of [notebooks/pso_multidiff/pso_multidiff.py]:
    the halo-mass generator and its sharding over a communicator
    ([load_halo_masses]), the SMF helpers ([calc_smf_cdf], [calc_smf_bin])
    and the two methods of [MySMFModel] that the optimiser calls
    ([calc_partial_sumstats_from_params], [calc_loss_from_sumstats]).

    Numbers.  Array entries are float32 in the program; here they are
    real numbers, and an operation that has no real value (a division by
    zero, a logarithm of a non-positive number, the mean of an empty
    array, ...) yields [None], which every later operation propagates,
    the way the program propagates nan (where the program goes on
    computing with an infinity, the model has no value either).  The
    rounding of float32 arithmetic is not followed; its range is, where
    the program takes a logarithm: a number too small or too large for a
    normal float32 has no logarithm in the model, as the program stores
    it as zero or as an infinity.  Python exceptions are a separate
    outcome ([Raise]).

    Library functions.  [jnp.linspace], [np.array_split], [jnp.log10],
    [jnp.sqrt], the power operator and [jax.scipy.special.erf] are
    modelled by what they compute over the reals; the error function is
    the normalised integral of the Gaussian, and its range and
    monotonicity are proved below from that definition.

    State.  The methods of the model are computations on [self]: a call
    returns an outcome together with the object as it leaves it. *)

From Stdlib Require Import Reals Lra Lia List ZArith Bool Arith.
From Stdlib Require Import Permutation Sorted.
Import ListNotations.

Local Open Scope R_scope.

(** ** Partial reals *)

Definition num : Type := option R.

Definition lift1 (f : R -> R) (a : num) : num :=
  match a with
  | Some x => Some (f x)
  | None => None
  end.

Definition lift2 (f : R -> R -> R) (a b : num) : num :=
  match a, b with
  | Some x, Some y => Some (f x y)
  | _, _ => None
  end.

Definition nadd : num -> num -> num := lift2 Rplus.
Definition nsub : num -> num -> num := lift2 Rminus.
Definition nmul : num -> num -> num := lift2 Rmult.

(** [x / y] on reals: no value when [y] is zero. *)
Definition rdiv (x y : R) : num :=
  if Req_dec_T y 0 then None else Some (x / y).

Definition ndiv (a b : num) : num :=
  match a, b with
  | Some x, Some y => rdiv x y
  | _, _ => None
  end.

(** [x ** 2] *)
Definition nsquare (a : num) : num := lift1 (fun x => x * x) a.

(** ** The range of float32 *)

(** The least and the greatest positive normal float32, [2^-126] and
    [(2 - 2^-23) * 2^127]: every real between them is stored as a
    positive finite float32. *)
Definition float32_min_normal : R := / 2 ^ 126.
Definition float32_max : R := (2 - / 2 ^ 23) * 2 ^ 127.

Definition float32_normal (x : R) : Prop :=
  float32_min_normal <= x <= float32_max.

(** ** Python outcomes *)

Module py.

Inductive exn : Type :=
| IndexError
| TypeError
| ValueError
| ZeroDivisionError.

Inductive result (A : Type) : Type :=
| Ok (a : A)
| Raise (e : exn).

Arguments Ok {A} a.
Arguments Raise {A} e.

Definition bind {A B : Type} (r : result A) (k : A -> result B) : result B :=
  match r with
  | Ok a => k a
  | Raise e => Raise e
  end.

(** [xs[i]] for a non-negative index *)
Definition getitem {A : Type} (xs : list A) (i : nat) : result A :=
  match nth_error xs i with
  | Some x => Ok x
  | None => Raise IndexError
  end.

(** [xs[st:en]] for non-negative bounds *)
Definition slice {A : Type} (xs : list A) (st en : nat) : list A :=
  firstn (en - st) (skipn st xs).

(** [1 / d] on Python ints: true division, raising on a zero divisor *)
Definition truediv (n d : Z) : result R :=
  if Z.eqb d 0 then Raise ZeroDivisionError else Ok (IZR n / IZR d).

End py.

Import py.

Notation "'let!' x ':=' e 'in' k" := (py.bind e (fun x => k))
  (at level 10, x name, e at level 100, k at level 200).

(** ** The array primitives the script uses *)

Module jnp.

(** [jnp.sum]: the sum of the entries, undefined as soon as one is. *)
Definition sum (xs : list num) : num := fold_right nadd (Some 0) xs.

(** [jnp.mean]: the sum over the number of entries; an empty array has
    no mean (the program gets nan). *)
Definition mean (xs : list num) : num :=
  ndiv (sum xs) (Some (INR (length xs))).

(** [jnp.log10] on an entry of a float32 array: the decimal logarithm of
    a number in the normal range of float32, and no value outside it.
    Zero and negative entries have no real logarithm (-inf, nan); a
    positive real far enough below the range is stored as zero, and one
    far enough above it as an infinity.  Close to the two ends (the
    subnormal numbers, which a platform may flush to zero, and the last
    rounding step above [float32_max]) what the program stores depends
    on the rounding; the model gives no value there, and no property
    below rests on it. *)
Definition log10 (x : R) : num :=
  if Rle_dec float32_min_normal x then
    if Rle_dec x float32_max then Some (ln x / ln 10) else None
  else None.

(** [x ** y] on floats, read over the reals: any exponent on a positive
    base; on a zero base, [0] for a positive exponent, [1] for a zero
    one and no real value (inf) for a negative one; on a negative base,
    an integer power when the exponent is an integer and no value (nan)
    otherwise. *)
Definition power (x y : R) : num :=
  if Rlt_dec 0 x then Some (Rpower x y)
  else if Req_dec_T x 0 then
    (if Rlt_dec 0 y then Some 0
     else if Req_dec_T y 0 then Some 1 else None)
  else if Req_dec_T y (IZR (Int_part y)) then Some (powerRZ x (Int_part y))
  else None.

(** [jnp.linspace(start, stop, num)] with [endpoint=True]: [num] evenly
    spaced samples; for [num > 1] the first [num - 1] are
    [start * (1 - i/div) + stop * (i/div)] with [div = num - 1], and
    [stop] itself is appended. *)
Definition linspace (start stop : R) (n : Z) : result (list R) :=
  if (n <? 0)%Z then Raise ValueError
  else match Z.to_nat n with
       | O => Ok []
       | S O => Ok [start]
       | S div =>
           Ok (map (fun i => start * (1 - INR i / INR div)
                             + stop * (INR i / INR div)) (seq 0 div)
               ++ [stop])
       end.

(** Binary elementwise operations broadcast one-dimensional operands:
    equal lengths pair up, a length-one operand is repeated, anything
    else is a shape error. *)
Definition broadcast2 (f : num -> num -> num) (xs ys : list num)
  : result (list num) :=
  if Nat.eqb (length xs) (length ys) then
    Ok (map (fun p => f (fst p) (snd p)) (combine xs ys))
  else match xs, ys with
       | [x], _ => Ok (map (fun y => f x y) ys)
       | _, [y] => Ok (map (fun x => f x y) xs)
       | _, _ => Raise TypeError
       end.

End jnp.

Module np.

(** Running sums: [cumsum [a; b; c] = [a; a+b; a+b+c]]. *)
Fixpoint cumsum_from (acc : nat) (xs : list nat) : list nat :=
  match xs with
  | [] => []
  | x :: rest => (acc + x)%nat :: cumsum_from (acc + x) rest
  end.

Definition cumsum (xs : list nat) : list nat := cumsum_from 0 xs.

(** [np.array_split(ary, Nsections)] for an integer number of sections:
<<
    Neach_section, extras = divmod(Ntotal, Nsections)
    section_sizes = ([0] + extras * [Neach_section+1] +
                     (Nsections-extras) * [Neach_section])
    div_points = array(section_sizes).cumsum()
    for i in range(Nsections):
        st = div_points[i]; end = div_points[i + 1]
        sub_arys.append(sary[st:end])
>> *)
Definition array_split {A : Type} (ary : list A) (Nsections : nat)
  : result (list (list A)) :=
  if Nat.eqb Nsections 0 then Raise ValueError
  else
    let Ntotal := length ary in
    let Neach_section := (Ntotal / Nsections)%nat in
    let extras := (Ntotal mod Nsections)%nat in
    let section_sizes :=
      [0%nat] ++ repeat (Neach_section + 1)%nat extras
              ++ repeat Neach_section (Nsections - extras) in
    let div_points := cumsum section_sizes in
    Ok (map (fun i => slice ary (nth i div_points 0%nat)
                                (nth (i + 1) div_points 0%nat))
            (seq 0 Nsections)).

End np.

(** ** The error function *)

Module special.

(** The integrand of the error function, which is continuous and
    therefore integrable over every interval. *)
Definition gauss (t : R) : R := exp (- (t * t)).

Definition gauss_continuous : continuity gauss :=
  derivable_continuous _
    (derivable_comp _ _ (derivable_opp _ derivable_Rsqr) derivable_exp).

Definition gauss_integrable (a b : R) : Riemann_integrable gauss a b :=
  match Rle_dec a b with
  | left Hab =>
      continuity_implies_RiemannInt Hab (fun x _ => gauss_continuous x)
  | right Hab =>
      RiemannInt_P1
        (continuity_implies_RiemannInt
           (Rlt_le _ _ (Rnot_le_lt _ _ Hab))
           (fun x _ => gauss_continuous x))
  end.

Definition gauss_integral (x : R) : R := RiemannInt (gauss_integrable 0 x).

(** [jax.scipy.special.erf]: [2 / sqrt(pi)] times the integral of
    [exp(-t^2)] from [0] to [x]. *)
Definition erf (x : R) : R := 2 / sqrt PI * gauss_integral x.

End special.

Import special.

(** ** Parameters *)

(** [class ParamTuple(NamedTuple)] with its two defaulted fields. *)
Record ParamTuple : Type := mkParamTuple {
  log_shmrat : R;
  sigma_logsm : R
}.

Definition ParamTuple_default : ParamTuple := mkParamTuple (-2.0) 0.2.

(** Unpacking [params] into a [ParamTuple] (the star-call of the
    constructor): positional fields, defaults for the missing ones, a
    [TypeError] for more than two. *)
Definition ParamTuple_unpack (params : list R) : result ParamTuple :=
  match params with
  | [] => Ok ParamTuple_default
  | [a] => Ok (mkParamTuple a (sigma_logsm ParamTuple_default))
  | [a; b] => Ok (mkParamTuple a b)
  | _ => Raise TypeError
  end.

(** A parameter tuple as the sequence the optimiser passes around. *)
Definition ParamTuple_astuple (p : ParamTuple) : list R :=
  [log_shmrat p; sigma_logsm p].

(** ** Halo masses and their sharding *)

(** What the script reads of an MPI communicator. *)
Record Comm : Type := mkComm {
  size : nat;
  rank : nat
}.

Definition default_num_halos : Z := 10000.
Definition default_slope : Z := (-2).
Definition default_mmin : R := 10.0 ^ 10.
Definition default_qmax : R := 0.95.

Section HaloMasses.

(** [MPI.COMM_WORLD] *)
Variable COMM_WORLD : Comm.

(** The full array [mhalo], before it is split. *)
Definition mhalo_array (num_halos slope : Z) (mmin qmax : R)
  : result (list num) :=
  let! q := jnp.linspace 0 qmax num_halos in
  let! e := py.truediv 1 (slope + 1) in
  Ok (map (fun qi => nmul (Some mmin) (jnp.power (1 - qi) e)) q).

(** [if comm is None: comm = MPI.COMM_WORLD] *)
Definition comm_or_world (comm : option Comm) : Comm :=
  match comm with
  | None => COMM_WORLD
  | Some c => c
  end.

Definition load_halo_masses (num_halos slope : Z) (mmin qmax : R)
    (comm : option Comm) : result (list num) :=
  let comm := comm_or_world comm in
  let! mhalo := mhalo_array num_halos slope mmin qmax in
  let! parts := np.array_split mhalo (size comm) in
  py.getitem parts (rank comm).

End HaloMasses.

(** ** The model object *)

(** The dictionary [dynamic_data], with the four keys the script stores. *)
Record dict : Type := mkdict {
  log_halo_masses : list R;
  smf_bin_edges : list R;
  volume : R;
  target_sumstats : list R
}.

(** [class MySMFModel]: the fields the subclass declares. *)
Record MySMFModel : Type := mkMySMFModel {
  dynamic_data : dict;
  loss_func_has_aux : bool
}.

(** The dataclass constructor with [loss_func_has_aux] left at its
    default. *)
Definition MySMFModel_init (data : dict) : MySMFModel :=
  mkMySMFModel data false.

(** A method is a computation on [self]: it returns an outcome and the
    object as the call leaves it. *)
Definition method (A : Type) : Type := MySMFModel -> result A * MySMFModel.

Definition mret {A : Type} (a : A) : method A := fun self => (Ok a, self).

Definition mbind {A B : Type} (m : method A) (k : A -> method B) : method B :=
  fun self =>
    match m self with
    | (Ok a, self') => k a self'
    | (Raise e, self') => (Raise e, self')
    end.

(** [self.dynamic_data[key]] *)
Definition self_dynamic_data {A : Type} (key : dict -> A) : method A :=
  fun self => (Ok (key (dynamic_data self)), self).

(** A computation that does not touch [self]. *)
Definition call {A : Type} (r : result A) : method A := fun self => (r, self).

Notation "x <- e ;; k" := (mbind e (fun x => k))
  (at level 61, e at next level, right associativity).

(** ** The SMF helpers *)

(** The body of [calc_smf_cdf] at one entry; on an array of means the
    program applies it entrywise (see [calc_smf_bin]). *)
Definition calc_smf_cdf (logsm mean_logsm sigma_logsm : R) : num :=
  nmul (Some 0.5)
       (nadd (Some 1)
             (lift1 special.erf
                    (rdiv (logsm - mean_logsm) (sqrt 2 * sigma_logsm)))).

Definition calc_smf_bin (params : list R) (logsm_low logsm_high volume : R)
    (log_halo_masses : list R) : result num :=
  let! params := ParamTuple_unpack params in
  let log_shmrat := log_shmrat params in
  let sigma_logsm := sigma_logsm params in
  let mean_logsm := map (fun m => m + log_shmrat) log_halo_masses in
  let cdf_high :=
    map (fun m => calc_smf_cdf logsm_high m sigma_logsm) mean_logsm in
  let cdf_low :=
    map (fun m => calc_smf_cdf logsm_low m sigma_logsm) mean_logsm in
  Ok (ndiv (ndiv (jnp.sum (map (fun p => nsub (fst p) (snd p))
                               (combine cdf_high cdf_low)))
                 (Some volume))
           (Some (logsm_high - logsm_low))).

(** ** The two methods of the model *)

(** The loop of [calc_partial_sumstats_from_params]: [smf] is the list
    built so far, [logsm_low] the lower edge of the next bin. *)
Fixpoint smf_loop (params : list R) (volume : R) (log_halo_masses : list R)
    (smf : list num) (logsm_low : R) (highs : list R) : result (list num) :=
  match highs with
  | [] => Ok smf
  | logsm_high :: rest =>
      let! smf_bin :=
        calc_smf_bin params logsm_low logsm_high volume log_halo_masses in
      smf_loop params volume log_halo_masses
               (smf ++ [smf_bin]) logsm_high rest
  end.

Definition calc_partial_sumstats_from_params (params : list R)
  : method (list num) :=
  bin_edges <- self_dynamic_data smf_bin_edges ;;
  log_halo_masses <- self_dynamic_data log_halo_masses ;;
  volume <- self_dynamic_data volume ;;
  logsm_low <- call (py.getitem bin_edges 0) ;;
  call (smf_loop params volume log_halo_masses [] logsm_low
                 (py.slice bin_edges 1 (length bin_edges))).

Definition calc_loss_from_sumstats {Aux : Type} (sumstats : list R)
    (sumstats_aux : option Aux) : method num :=
  target_sumstats <- self_dynamic_data target_sumstats ;;
  let target_sumstats := map jnp.log10 target_sumstats in
  let sumstats := map jnp.log10 sumstats in
  diff <- call (jnp.broadcast2 nsub sumstats target_sumstats) ;;
  mret (jnp.mean (map nsquare diff)).

(** ** The driver's data *)

(** The first entry of the dictionary,
    [jnp.log10(load_halo_masses(args.num_halos, comm=particle_comm))]. *)
Definition driver_log_halo_masses (COMM_WORLD : Comm) (num_halos : Z)
    (particle_comm : Comm) : result (list num) :=
  let! masses :=
    load_halo_masses COMM_WORLD num_halos default_slope default_mmin
      default_qmax (Some particle_comm) in
  Ok (map (fun m => match m with
                    | Some x => jnp.log10 x
                    | None => None
                    end) masses).

(** The dictionary [data] of the main block, for the logarithmic halo
    masses of this process (real numbers, see
    [driver_log_halo_masses_are_real]) and the [--num-halos] argument. *)
Definition data (log_halo_masses : list R) (num_halos : Z) : result dict :=
  let! smf_bin_edges := jnp.linspace 9 10 11 in
  Ok (mkdict log_halo_masses smf_bin_edges (10.0 * IZR num_halos)
        [2.30178721e-02; 1.69728529e-02; 1.16054425e-02; 7.10532581e-03;
         3.77187086e-03; 1.69136131e-03; 6.28149020e-04; 1.90466686e-04;
         4.66692982e-05; 9.17260695e-06]).

(** The bounds of the box the swarm searches,
    [xlow=[-4, 1e-3], xhigh=[1, 3.0]], and the parameter tuples that lie
    between the two, entry by entry. *)
Definition swarm_xlow : list R := [-4; 1e-3].
Definition swarm_xhigh : list R := [1; 3.0].

Definition in_search_box (p : ParamTuple) : Prop :=
  Forall2 Rle swarm_xlow (ParamTuple_astuple p) /\
  Forall2 Rle (ParamTuple_astuple p) swarm_xhigh.

(** ** The report *)

(** [smf_bin_cens] of the plots,
    [0.5 * (smf_bin_edges[:-1] + smf_bin_edges[1:])]: half the entrywise
    sum of the edges without the last one and the edges without the
    first one, two arrays of one length. *)
Definition smf_bin_cens (smf_bin_edges : list R) : list R :=
  map (fun ab => 0.5 * (fst ab + snd ab))
      (combine (removelast smf_bin_edges) (tl smf_bin_edges)).

(** ** Notions the properties are stated with *)

(** A method leaves the object as it found it. *)
Definition read_only {A : Type} (m : method A) : Prop :=
  forall self, snd (m self) = self.

(** The outcome of a method depends on [self] through [dynamic_data]
    only. *)
Definition reads_dynamic_data_only {A : Type} (m : method A) : Prop :=
  forall self1 self2,
    dynamic_data self1 = dynamic_data self2 ->
    fst (m self1) = fst (m self2).

(** The value [calc_smf_bin] computes once the parameters are unpacked:
    the sum over the halos of [cdf_high - cdf_low], over the volume and
    the bin width. *)
Definition smf_bin_value (p : ParamTuple)
    (logsm_low logsm_high volume : R) (log_halo_masses : list R) : num :=
  ndiv (ndiv (jnp.sum
                (map (fun m =>
                        nsub (calc_smf_cdf logsm_high
                                (m + log_shmrat p) (sigma_logsm p))
                             (calc_smf_cdf logsm_low
                                (m + log_shmrat p) (sigma_logsm p)))
                     log_halo_masses))
             (Some volume))
       (Some (logsm_high - logsm_low)).

(** The bins the loop visits: [(e0, e1); (e1, e2); ...]. *)
Fixpoint consecutive (logsm_low : R) (highs : list R) : list (R * R) :=
  match highs with
  | [] => []
  | logsm_high :: rest => (logsm_low, logsm_high) :: consecutive logsm_high rest
  end.

(** Modelled from the spec: the reduction over the members of a group,
    which the program leaves to the [multidiff] package (not under src/):
    "TotalStat for a group is the elementwise sum of all PartialStat
    contributed by members of that group".  A member that raises makes
    the reduction raise. *)
Definition elementwise_sum (u v : list num) : list num :=
  map (fun p => nadd (fst p) (snd p)) (combine u v).

Definition total_sumstats (first : result (list num))
    (others : list (result (list num))) : result (list num) :=
  fold_left (fun total partial =>
               let! t := total in
               let! s := partial in
               Ok (elementwise_sum t s))
            others first.

(** The model object of a worker that holds [shard] under
    [dynamic_data["log_halo_masses"]], everything else as in [self]. *)
Definition with_log_halo_masses (self : MySMFModel) (shard : list R)
  : MySMFModel :=
  mkMySMFModel
    (mkdict shard
            (smf_bin_edges (dynamic_data self))
            (volume (dynamic_data self))
            (target_sumstats (dynamic_data self)))
    (loss_func_has_aux self).

(** The partial statistic that worker computes. *)
Definition worker_partial_sumstats (params : list R)
    (self : MySMFModel) (shard : list R) : result (list num) :=
  fst (calc_partial_sumstats_from_params params
         (with_log_halo_masses self shard)).

(** The loss in the words of its comment, a mean squared error between
    decimal logarithms:
    [(1/K) * sum_k (log10 (sumstats k) - log10 (target k))^2]. *)
Definition log10_real (x : R) : R := ln x / ln 10.

Definition squared_log_errors (sumstats target : list R) : list R :=
  map (fun p => (log10_real (fst p) - log10_real (snd p)) ^ 2)
      (combine sumstats target).

Definition mean_squared_log_error (sumstats target : list R) : R :=
  1 / INR (length sumstats)
  * fold_right Rplus 0 (squared_log_errors sumstats target).

(** Where the shard of rank [r] starts when [n] entries are split over
    [S] ranks: [r] blocks of [n / S] entries, the first [n mod S] of
    them one longer. *)
Definition shard_offset (n S r : nat) : nat :=
  (r * (n / S) + Nat.min r (n mod S))%nat.

Definition shard_size (n S r : nat) : nat :=
  (n / S + (if r <? n mod S then 1 else 0))%nat.





(** ** Notions for the further properties *)

(** The value of [calc_smf_cdf] where it has one. *)
Definition cdf_value (logsm mean_logsm sigma_logsm : R) : R :=
  0.5 * (1 + special.erf ((logsm - mean_logsm) / (sqrt 2 * sigma_logsm))).

(** The expected number of the halos of a shard whose stellar mass lies
    below [logsm]: the sum of the distribution function over the halos. *)
Definition cumulative_count (p : ParamTuple) (logsm : R)
    (log_halo_masses : list R) : R :=
  fold_right Rplus 0
    (map (fun m => cdf_value logsm (m + log_shmrat p) (sigma_logsm p))
         log_halo_masses).


(** The value of a bin where it has one: the expected number of halos
    in the bin, over the volume and the bin width. *)
Definition smf_bin_real (p : ParamTuple) (volume : R)
    (log_halo_masses : list R) (bin : R * R) : R :=
  (cumulative_count p (snd bin) log_halo_masses
   - cumulative_count p (fst bin) log_halo_masses)
  / volume / (snd bin - fst bin).


(** ** Sample inputs *)

(** A model with one bin, from 9 to 10, unit volume and a two-entry
    target. *)
Definition sample_model : MySMFModel :=
  MySMFModel_init (mkdict [12; 11] [9; 10] 1 [1; 2]).

(** * Properties *)

(** ** The primitives on small inputs *)

Example cumsum_of_section_sizes : np.cumsum [0; 3; 2]%nat = [0; 3; 5]%nat.
Proof. reflexivity. Qed.

Example array_split_5_in_2 :
  np.array_split [1; 2; 3; 4; 5]%nat 2 = Ok [[1; 2; 3]; [4; 5]]%nat.
Proof. reflexivity. Qed.

Example array_split_5_in_3 :
  np.array_split [1; 2; 3; 4; 5]%nat 3 = Ok [[1; 2]; [3; 4]; [5]]%nat.
Proof. reflexivity. Qed.

Example array_split_2_in_3 :
  np.array_split [1; 2]%nat 3 = Ok [[1]; [2]; []]%nat.
Proof. reflexivity. Qed.

Example array_split_in_0 :
  np.array_split [1; 2]%nat 0 = Raise ValueError.
Proof. reflexivity. Qed.

Example slice_inside : py.slice [1; 2; 3; 4; 5]%nat 1 3 = [2; 3]%nat.
Proof. reflexivity. Qed.

Example getitem_past_the_end : py.getitem [1; 2]%nat 2 = Raise IndexError.
Proof. reflexivity. Qed.

Example linspace_of_three : jnp.linspace 0 1 3 = Ok [0; 1 / 2; 1].
Proof.
  unfold jnp.linspace. simpl. do 2 f_equal; [lra |]. f_equal. lra.
Qed.

Example linspace_of_one : jnp.linspace 0 1 1 = Ok [0].
Proof. reflexivity. Qed.

Example linspace_negative : jnp.linspace 0 1 (-1) = Raise ValueError.
Proof. reflexivity. Qed.

Example unpack_one_parameter :
  ParamTuple_unpack [-1] = Ok (mkParamTuple (-1) 0.2).
Proof. reflexivity. Qed.

Example unpack_three_parameters :
  ParamTuple_unpack [-1; 0.5; 3] = Raise TypeError.
Proof. reflexivity. Qed.

Example broadcast_shapes_2_and_3 :
  jnp.broadcast2 nsub [Some 1; Some 2] [Some 1; Some 2; Some 3]
  = Raise TypeError.
Proof. reflexivity. Qed.

Example broadcast_shapes_1_and_2 :
  jnp.broadcast2 nsub [Some 5] [Some 1; Some 2]
  = Ok [Some (5 - 1); Some (5 - 2)].
Proof. reflexivity. Qed.

Example mean_of_nothing : jnp.mean [] = None.
Proof.
  unfold jnp.mean, ndiv, rdiv. simpl.
  destruct (Req_dec_T 0 0); [reflexivity | contradiction].
Qed.

Lemma float32_min_normal_pos : 0 < float32_min_normal.
Proof. unfold float32_min_normal. apply Rinv_0_lt_compat, pow_lt. lra. Qed.

Example log10_of_zero : jnp.log10 0 = None.
Proof.
  unfold jnp.log10. pose proof float32_min_normal_pos.
  destruct (Rle_dec float32_min_normal 0) as [H0 | _]; [lra | reflexivity].
Qed.

Example truediv_by_zero : py.truediv 1 (-1 + 1) = Raise ZeroDivisionError.
Proof. reflexivity. Qed.

(** ** Methods and the object *)

Lemma read_only_mret {A : Type} (a : A) : read_only (mret a).
Proof. intros self. reflexivity. Qed.

Lemma read_only_call {A : Type} (r : result A) : read_only (call r).
Proof. intros self. reflexivity. Qed.

Lemma read_only_self_dynamic_data {A : Type} (key : dict -> A) :
  read_only (self_dynamic_data key).
Proof. intros self. reflexivity. Qed.

Lemma read_only_mbind {A B : Type} (m : method A) (k : A -> method B) :
  read_only m -> (forall a, read_only (k a)) -> read_only (mbind m k).
Proof.
  intros Hm Hk self. unfold mbind.
  specialize (Hm self). destruct (m self) as [[a | e] self']; simpl in *.
  - subst self'. apply Hk.
  - exact Hm.
Qed.

Lemma pure_mret {A : Type} (a : A) : reads_dynamic_data_only (mret a).
Proof. intros s1 s2 _. reflexivity. Qed.

Lemma pure_call {A : Type} (r : result A) : reads_dynamic_data_only (call r).
Proof. intros s1 s2 _. reflexivity. Qed.

Lemma pure_self_dynamic_data {A : Type} (key : dict -> A) :
  reads_dynamic_data_only (self_dynamic_data key).
Proof. intros s1 s2 H. unfold self_dynamic_data. simpl. now rewrite H. Qed.

Lemma pure_mbind {A B : Type} (m : method A) (k : A -> method B) :
  read_only m -> reads_dynamic_data_only m ->
  (forall a, reads_dynamic_data_only (k a)) ->
  reads_dynamic_data_only (mbind m k).
Proof.
  intros Hro Hm Hk s1 s2 H. unfold mbind.
  pose proof (Hm s1 s2 H) as Hfst.
  pose proof (Hro s1) as H1. pose proof (Hro s2) as H2.
  destruct (m s1) as [r1 t1], (m s2) as [r2 t2]; simpl in *. subst.
  destruct r2 as [a | e]; simpl; [apply Hk; exact H | reflexivity].
Qed.

Create HintDb methods.

#[local] Hint Resolve read_only_mret read_only_call
  read_only_self_dynamic_data read_only_mbind : methods.
#[local] Hint Resolve pure_mret pure_call pure_self_dynamic_data : methods.

Lemma read_only_calc_partial (params : list R) :
  read_only (calc_partial_sumstats_from_params params).
Proof. unfold calc_partial_sumstats_from_params. auto 10 with methods. Qed.

Lemma read_only_calc_loss {Aux : Type} (sumstats : list R)
    (aux : option Aux) :
  read_only (calc_loss_from_sumstats sumstats aux).
Proof. unfold calc_loss_from_sumstats. auto 10 with methods. Qed.

Lemma pure_calc_partial (params : list R) :
  reads_dynamic_data_only (calc_partial_sumstats_from_params params).
Proof.
  unfold calc_partial_sumstats_from_params.
  repeat (apply pure_mbind; [auto with methods | auto with methods | intros ]).
  auto with methods.
Qed.

Lemma pure_calc_loss {Aux : Type} (sumstats : list R) (aux : option Aux) :
  reads_dynamic_data_only (calc_loss_from_sumstats sumstats aux).
Proof.
  unfold calc_loss_from_sumstats.
  repeat (apply pure_mbind; [auto with methods | auto with methods | intros ]).
  auto with methods.
Qed.

(** Two calls in a row, the second on the object the first one left. *)
Lemma twice_same_outcome {A : Type} (m : method A) (self : MySMFModel) :
  read_only m ->
  fst (m (snd (m self))) = fst (m self).
Proof. intros Hro. now rewrite Hro. Qed.

(** C7: a call of [calc_partial_sumstats_from_params] or of
    [calc_loss_from_sumstats] leaves the model object, and with it every
    entry of [dynamic_data] (the shard of halo masses, the bin edges, the
    volume and the target), exactly as it was before the call, whatever
    the parameters and the summary statistics passed, and whether the
    call returns or raises. *)
Theorem dynamic_data_unchanged_by_evaluation
    (params sumstats : list R) (Aux : Type)
    (aux : option Aux) (self : MySMFModel) :
  let after_partial :=
    snd (calc_partial_sumstats_from_params params self) in
  let after_loss := snd (calc_loss_from_sumstats sumstats aux self) in
  after_partial = self /\ after_loss = self /\
  dynamic_data after_partial = dynamic_data self /\
  dynamic_data after_loss = dynamic_data self.
Proof.
  cbv zeta.
  rewrite (read_only_calc_partial params self).
  rewrite (read_only_calc_loss sumstats aux self).
  repeat split.
Qed.

(** C3: two calls of [calc_partial_sumstats_from_params] with the same
    parameters on objects whose [dynamic_data] have the same contents
    return the same outcome, and so do two calls of
    [calc_loss_from_sumstats] with the same summary statistics; in
    particular a call repeated on the object the first call left returns
    what the first call returned. *)
Theorem evaluation_is_deterministic
    (params sumstats : list R) (Aux : Type)
    (aux : option Aux) (self1 self2 : MySMFModel) :
  dynamic_data self1 = dynamic_data self2 ->
  fst (calc_partial_sumstats_from_params params self1)
    = fst (calc_partial_sumstats_from_params params self2) /\
  fst (calc_loss_from_sumstats sumstats aux self1)
    = fst (calc_loss_from_sumstats sumstats aux self2) /\
  fst (calc_partial_sumstats_from_params params
         (snd (calc_partial_sumstats_from_params params self1)))
    = fst (calc_partial_sumstats_from_params params self1) /\
  fst (calc_loss_from_sumstats sumstats aux
         (snd (calc_loss_from_sumstats sumstats aux self1)))
    = fst (calc_loss_from_sumstats sumstats aux self1).
Proof.
  intros Hsame. repeat split.
  - now apply pure_calc_partial.
  - now apply pure_calc_loss.
  - apply twice_same_outcome, read_only_calc_partial.
  - apply twice_same_outcome, read_only_calc_loss.
Qed.

(** C6: the loss does not depend on [sumstats_aux]: whatever two values
    are passed for it, of whatever types, [None] included, the call has
    the same outcome and leaves the same object; and a model built with
    the dataclass default has [loss_func_has_aux = False]. *)
Theorem loss_ignores_sumstats_aux
    (sumstats : list R) (Aux1 Aux2 : Type) (aux1 : option Aux1)
    (aux2 : option Aux2) (self : MySMFModel) (d : dict) :
  calc_loss_from_sumstats sumstats aux1 self
    = calc_loss_from_sumstats sumstats aux2 self /\
  calc_loss_from_sumstats sumstats aux1 self
    = calc_loss_from_sumstats sumstats (@None Aux2) self /\
  loss_func_has_aux (MySMFModel_init d) = false.
Proof. repeat split. Qed.

(** ** What the loop over the bins computes *)

Lemma combine_map_same {A B C : Type} (f : A -> B) (g : A -> C)
    (l : list A) :
  combine (map f l) (map g l) = map (fun x => (f x, g x)) l.
Proof. induction l as [| x l IH]; simpl; [reflexivity | now rewrite IH]. Qed.

Lemma calc_smf_bin_unpacked (params : list R)
    (p : ParamTuple) (lo hi vol : R) (halos : list R) :
  ParamTuple_unpack params = Ok p ->
  calc_smf_bin params lo hi vol halos
    = Ok (smf_bin_value p lo hi vol halos).
Proof.
  intros Hp. unfold calc_smf_bin, smf_bin_value. rewrite Hp. simpl.
  rewrite combine_map_same, !map_map. reflexivity.
Qed.

Lemma calc_smf_bin_raises (params : list R) (e : exn)
    (lo hi vol : R) (halos : list R) :
  ParamTuple_unpack params = Raise e ->
  calc_smf_bin params lo hi vol halos = Raise e.
Proof. intros Hp. unfold calc_smf_bin. now rewrite Hp. Qed.

Lemma unpack_astuple (p : ParamTuple) :
  ParamTuple_unpack (ParamTuple_astuple p) = Ok p.
Proof. destruct p; reflexivity. Qed.

Lemma smf_loop_unpacked (params : list R) (p : ParamTuple)
    (vol : R) (halos : list R) (highs : list R) :
  ParamTuple_unpack params = Ok p ->
  forall (smf : list num) (lo : R),
    smf_loop params vol halos smf lo highs
      = Ok (smf ++ map (fun b => smf_bin_value p (fst b) (snd b) vol halos)
                       (consecutive lo highs)).
Proof.
  intros Hp. induction highs as [| hi rest IH]; intros smf lo; simpl.
  - now rewrite app_nil_r.
  - rewrite (calc_smf_bin_unpacked _ _ _ _ _ _ Hp). simpl.
    rewrite IH, <- app_assoc. reflexivity.
Qed.

Lemma smf_loop_raises (params : list R) (e : exn)
    (vol : R) (halos : list R) (smf : list num) (lo hi : R)
    (rest : list R) :
  ParamTuple_unpack params = Raise e ->
  smf_loop params vol halos smf lo (hi :: rest) = Raise e.
Proof.
  intros Hp. simpl. now rewrite (calc_smf_bin_raises _ _ _ _ _ _ Hp).
Qed.

Lemma consecutive_combine (lo : R) (highs : list R) :
  consecutive lo highs = combine (lo :: highs) highs.
Proof.
  revert lo. induction highs as [| hi rest IH]; intros lo; simpl.
  - reflexivity.
  - now rewrite IH.
Qed.

Lemma length_consecutive (lo : R) (highs : list R) :
  length (consecutive lo highs) = length highs.
Proof.
  revert lo. induction highs as [| hi rest IH]; intros lo; simpl; auto.
Qed.

Lemma slice_tail {A : Type} (x : A) (xs : list A) :
  py.slice (x :: xs) 1 (length (x :: xs)) = xs.
Proof.
  unfold py.slice. simpl. rewrite Nat.sub_0_r. apply firstn_all.
Qed.

(** The method, as a function of the contents of [dynamic_data]. *)
Lemma calc_partial_outcome (params : list R)
    (self : MySMFModel) :
  fst (calc_partial_sumstats_from_params params self)
    = match smf_bin_edges (dynamic_data self) with
      | [] => Raise IndexError
      | e0 :: es =>
          smf_loop params (volume (dynamic_data self))
            (log_halo_masses (dynamic_data self)) [] e0 es
      end.
Proof.
  unfold calc_partial_sumstats_from_params, mbind, self_dynamic_data, call.
  simpl. destruct (smf_bin_edges (dynamic_data self)) as [| e0 es].
  - reflexivity.
  - unfold py.getitem. cbn [nth_error fst]. now rewrite slice_tail.
Qed.

Lemma Forall2_map_graph {A B : Type} (P : A -> B -> Prop) (f : A -> B)
    (l : list A) :
  (forall a, P a (f a)) -> Forall2 P l (map f l).
Proof. intros H. induction l; simpl; constructor; auto. Qed.

Lemma calc_partial_astuple (p : ParamTuple)
    (self : MySMFModel) (e0 : R) (es : list R) :
  smf_bin_edges (dynamic_data self) = e0 :: es ->
  fst (calc_partial_sumstats_from_params (ParamTuple_astuple p) self)
    = Ok (map (fun b => smf_bin_value p (fst b) (snd b)
                          (volume (dynamic_data self))
                          (log_halo_masses (dynamic_data self)))
              (consecutive e0 es)).
Proof.
  intros He. rewrite calc_partial_outcome, He.
  now rewrite (smf_loop_unpacked _ p _ _ _ (unpack_astuple p)).
Qed.

Lemma driver_data_shape (halos : list R) (num_halos : Z) :
  exists d,
    data halos num_halos = Ok d /\
    Ok (smf_bin_edges d) = jnp.linspace 9 10 11 /\
    length (smf_bin_edges d) = 11%nat /\
    length (target_sumstats d) = 10%nat /\
    log_halo_masses d = halos.
Proof.
  unfold data, jnp.linspace. simpl.
  eexists. split; [reflexivity |]. simpl. repeat split.
Qed.

(** C5: when [dynamic_data["smf_bin_edges"]] holds [B >= 1] edges,
    [calc_partial_sumstats_from_params] returns a vector of exactly
    [B - 1] values, the value of [calc_smf_bin] on each consecutive pair
    of edges, in order; and for the driver's dictionary (edges
    [linspace(9, 10, 11)]) the vector has 10 values, as many as
    [target_sumstats]. *)
Theorem partial_sumstats_has_one_value_per_bin
    (p : ParamTuple) (self : MySMFModel)
    (halos : list R) (num_halos : Z) :
  (1 <= length (smf_bin_edges (dynamic_data self)))%nat ->
  (exists smf,
      fst (calc_partial_sumstats_from_params (ParamTuple_astuple p) self)
        = Ok smf /\
      length smf = (length (smf_bin_edges (dynamic_data self)) - 1)%nat /\
      Forall2 (fun b v =>
                 calc_smf_bin (ParamTuple_astuple p) (fst b) (snd b)
                   (volume (dynamic_data self))
                   (log_halo_masses (dynamic_data self)) = Ok v)
              (combine (smf_bin_edges (dynamic_data self))
                       (tl (smf_bin_edges (dynamic_data self))))
              smf) /\
  (exists d smf,
      data halos num_halos = Ok d /\
      Ok (smf_bin_edges d) = jnp.linspace 9 10 11 /\
      fst (calc_partial_sumstats_from_params (ParamTuple_astuple p)
             (MySMFModel_init d)) = Ok smf /\
      length smf = 10%nat /\
      length smf = length (target_sumstats d)).
Proof.
  intros HB. split.
  - destruct (smf_bin_edges (dynamic_data self)) as [| e0 es] eqn:He;
      [simpl in HB; lia |].
    eexists. split; [apply (calc_partial_astuple p self e0 es He) |].
    split.
    + rewrite length_map, length_consecutive. simpl. lia.
    + simpl tl. rewrite <- consecutive_combine.
      apply Forall2_map_graph. intros b.
      apply calc_smf_bin_unpacked, unpack_astuple.
  - destruct (driver_data_shape halos num_halos)
      as (d & Hd & Hedges & Hlen & Htarget & _).
    destruct (smf_bin_edges d) as [| e0 es] eqn:He; [discriminate Hlen |].
    exists d. eexists. split; [exact Hd |]. split; [now rewrite He |].
    split; [apply (calc_partial_astuple p (MySMFModel_init d) e0 es He) |].
    rewrite length_map, length_consecutive, Htarget.
    simpl in Hlen. split; lia.
Qed.

(** ** Partial reals: when a value is defined *)

Lemma rdiv_defined (x y : R) : y <> 0 -> rdiv x y = Some (x / y).
Proof.
  intros Hy. unfold rdiv.
  destruct (Req_dec_T y 0); [contradiction | reflexivity].
Qed.

Lemma rdiv_by_zero (x : R) : rdiv x 0 = None.
Proof.
  unfold rdiv. destruct (Req_dec_T 0 0); [reflexivity | contradiction].
Qed.

Lemma log10_defined (x : R) :
  float32_normal x -> jnp.log10 x = Some (ln x / ln 10).
Proof.
  intros (Hlo & Hhi). unfold jnp.log10.
  destruct (Rle_dec float32_min_normal x); [| contradiction].
  destruct (Rle_dec x float32_max); [reflexivity | contradiction].
Qed.

Lemma float32_normal_pos (x : R) : float32_normal x -> 0 < x.
Proof.
  intros (Hlo & _). pose proof float32_min_normal_pos. lra.
Qed.

Lemma pow2_as_integer (n : nat) : 2 ^ n = IZR (2 ^ Z.of_nat n).
Proof. now rewrite <- pow_IZR. Qed.

Lemma pow10_as_integer (n : nat) : 10 ^ n = IZR (10 ^ Z.of_nat n).
Proof. now rewrite <- pow_IZR. Qed.

Lemma float32_max_as_integer : float32_max = IZR (2 ^ 128 - 2 ^ 104).
Proof.
  unfold float32_max.
  replace (2 ^ 127) with (2 ^ 23 * 2 ^ 104)
    by (rewrite <- pow_add; reflexivity).
  assert (H23 : 0 < 2 ^ 23) by (apply pow_lt; lra).
  replace ((2 - / 2 ^ 23) * (2 ^ 23 * 2 ^ 104))
    with ((2 * 2 ^ 23 - 1) * 2 ^ 104) by (field; lra).
  rewrite !pow2_as_integer, <- mult_IZR, <- minus_IZR, <- mult_IZR.
  f_equal.
Qed.

Lemma float32_normal_of_bounds (x : R) :
  / 10 ^ 37 <= x <= 10 ^ 38 -> float32_normal x.
Proof.
  intros (Hlo & Hhi). split.
  - apply Rle_trans with (/ 10 ^ 37); [| exact Hlo].
    unfold float32_min_normal.
    apply Rinv_le_contravar; [apply pow_lt; lra |].
    rewrite pow2_as_integer, pow10_as_integer. apply IZR_le.
    vm_compute. discriminate.
  - apply Rle_trans with (10 ^ 38); [exact Hhi |].
    rewrite float32_max_as_integer, pow10_as_integer. apply IZR_le.
    vm_compute. discriminate.
Qed.

(** Numbers of moderate size are in the range. *)
Lemma float32_normal_moderate (x : R) :
  1e-30 <= x <= 1e30 -> float32_normal x.
Proof.
  intros (Hlo & Hhi). apply float32_normal_of_bounds.
  rewrite !pow10_as_integer. simpl Z.pow. split; lra.
Qed.

(** [1e-50] is below the range: the program stores it as zero. *)
Lemma float32_underflow : 1e-50 < float32_min_normal.
Proof.
  unfold float32_min_normal.
  replace 1e-50 with (/ 10 ^ 50).
  - apply Rinv_lt_contravar.
    + apply Rmult_lt_0_compat; apply pow_lt; lra.
    + rewrite pow2_as_integer, pow10_as_integer. apply IZR_lt.
      vm_compute. reflexivity.
  - rewrite pow10_as_integer. simpl. lra.
Qed.

Lemma log10_of_underflow : jnp.log10 1e-50 = None.
Proof.
  unfold jnp.log10. pose proof float32_underflow.
  destruct (Rle_dec float32_min_normal 1e-50); [lra | reflexivity].
Qed.

Lemma sum_cons (x : num) (xs : list num) :
  jnp.sum (x :: xs) = nadd x (jnp.sum xs).
Proof. reflexivity. Qed.


(** ** The error function: range and monotonicity *)

(** The integral of the Gaussian from 0 to [x] is at most [sqrt(pi) / 2]
    in absolute value.  The Gaussian lies below [1 / (1 + t^2/n)^n], a
    primitive of which is [sqrt n] times the primitive of [cos^(2n-2)]
    taken at [atan (t / sqrt n)]; so the integral is at most
    [sqrt n * W (2n-2)], where [W k] is the integral of [cos^k] over the
    quarter period.  As [W k * W (k+1) = pi / (2 (k+1))] and [W] decreases,
    [n * W (2n-2)^2 <= pi/4 * n/(n-1)], and [n] is arbitrary. *)













Lemma gauss_bounds (t : R) : 0 < gauss t <= 1.
Proof.
  unfold gauss. split; [apply exp_pos |].
  rewrite <- exp_0. destruct (Req_dec (- (t * t)) 0) as [-> | Hne].
  - lra.
  - left. apply exp_increasing. nra.
Qed.

Lemma gauss_integral_chasles (x y : R) :
  gauss_integral x + RiemannInt (gauss_integrable x y) = gauss_integral y.
Proof. unfold gauss_integral. apply RiemannInt_P26. Qed.





















(** ** The cumulative distribution and the sign of the bins *)

Lemma sqrt2_sigma_pos (sigma : R) : 0 < sigma -> 0 < sqrt 2 * sigma.
Proof. intros Hs. apply Rmult_lt_0_compat; [apply Rlt_sqrt2_0 | exact Hs]. Qed.

Lemma calc_smf_cdf_defined (logsm mean sigma : R) :
  sigma <> 0 ->
  calc_smf_cdf logsm mean sigma
    = Some (0.5 * (1 + special.erf ((logsm - mean) / (sqrt 2 * sigma)))).
Proof.
  intros Hs. unfold calc_smf_cdf. rewrite rdiv_defined; [reflexivity |].
  pose proof Rlt_sqrt2_0. apply Rmult_integral_contrapositive_currified; lra.
Qed.





Lemma consecutive_increasing (e0 : R) (es : list R) :
  Sorted Rlt (e0 :: es) ->
  Forall (fun b => fst b < snd b) (consecutive e0 es).
Proof.
  revert e0. induction es as [| e1 es IH]; intros e0 Hsorted; simpl.
  - constructor.
  - inversion Hsorted as [| ? ? Htail Hhd]; subst.
    constructor.
    + simpl. now inversion Hhd; subst.
    + now apply IH.
Qed.



(** ** Additivity over the shards *)

Lemma nadd_comm (a b : num) : nadd a b = nadd b a.
Proof. destruct a, b; simpl; try reflexivity. f_equal. apply Rplus_comm. Qed.

Lemma nadd_assoc (a b c : num) : nadd a (nadd b c) = nadd (nadd a b) c.
Proof.
  destruct a, b, c; simpl; try reflexivity. f_equal.
  symmetry. apply Rplus_assoc.
Qed.

Lemma nadd_zero_l (a : num) : nadd (Some 0) a = a.
Proof. destruct a; simpl; [f_equal; apply Rplus_0_l | reflexivity]. Qed.

Lemma sum_app (l1 l2 : list num) :
  jnp.sum (l1 ++ l2) = nadd (jnp.sum l1) (jnp.sum l2).
Proof.
  induction l1 as [| x l1 IH]; simpl app.
  - change (jnp.sum []) with (Some 0). now rewrite nadd_zero_l.
  - rewrite !sum_cons, IH. apply nadd_assoc.
Qed.

Lemma sum_permutation (l1 l2 : list num) :
  Permutation l1 l2 -> jnp.sum l1 = jnp.sum l2.
Proof.
  induction 1 as [| x l l' _ IH | x y l | l l' l'' _ IH1 _ IH2].
  - reflexivity.
  - now rewrite !sum_cons, IH.
  - rewrite !sum_cons, !nadd_assoc. f_equal. apply nadd_comm.
  - now rewrite IH1.
Qed.

(** Dividing by the volume and by the bin width commutes with adding. *)
Lemma scale_nadd (x y : num) (vol width : R) :
  ndiv (ndiv (nadd x y) (Some vol)) (Some width)
    = nadd (ndiv (ndiv x (Some vol)) (Some width))
           (ndiv (ndiv y (Some vol)) (Some width)).
Proof.
  destruct x as [x |], y as [y |]; simpl; try reflexivity.
  - unfold rdiv. destruct (Req_dec_T vol 0); simpl; [reflexivity |].
    unfold rdiv. destruct (Req_dec_T width 0); simpl; [reflexivity |].
    f_equal. field. split; assumption.
  - destruct (rdiv x vol) as [q |]; simpl; [| reflexivity].
    now destruct (rdiv q width).
Qed.

Lemma smf_bin_value_app (p : ParamTuple) (lo hi vol : R)
    (s1 s2 : list R) :
  smf_bin_value p lo hi vol (s1 ++ s2)
    = nadd (smf_bin_value p lo hi vol s1)
           (smf_bin_value p lo hi vol s2).
Proof.
  unfold smf_bin_value. rewrite map_app, sum_app. apply scale_nadd.
Qed.

Lemma smf_bin_value_permutation (p : ParamTuple)
    (lo hi vol : R) (s1 s2 : list R) :
  Permutation s1 s2 ->
  smf_bin_value p lo hi vol s1 = smf_bin_value p lo hi vol s2.
Proof.
  intros Hperm. unfold smf_bin_value.
  now rewrite (sum_permutation _ _ (Permutation_map _ Hperm)).
Qed.

Lemma elementwise_sum_map {A : Type} (f g : A -> num) (l : list A) :
  elementwise_sum (map f l) (map g l) = map (fun a => nadd (f a) (g a)) l.
Proof.
  unfold elementwise_sum. rewrite combine_map_same, map_map. reflexivity.
Qed.

(** How the partial statistic depends on the shard: either the call
    raises whatever the shard, or it returns the bin values of the
    shard for bins and parameters that the shard does not influence. *)
Lemma worker_partial_cases (params : list R)
    (self : MySMFModel) :
  (exists e, forall shard,
      worker_partial_sumstats params self shard = Raise e) \/
  (exists p bins, forall shard,
      worker_partial_sumstats params self shard
        = Ok (map (fun b => smf_bin_value p (fst b) (snd b)
                              (volume (dynamic_data self)) shard) bins)).
Proof.
  unfold worker_partial_sumstats.
  destruct (smf_bin_edges (dynamic_data self)) as [| e0 es] eqn:He.
  - left. exists IndexError. intros shard.
    rewrite calc_partial_outcome. simpl. now rewrite He.
  - destruct (ParamTuple_unpack params) as [p | e] eqn:Hp.
    + right. exists p, (consecutive e0 es). intros shard.
      rewrite calc_partial_outcome. simpl. rewrite He.
      now rewrite (smf_loop_unpacked params p _ _ _ Hp).
    + destruct es as [| e1 es].
      * right. exists ParamTuple_default, []. intros shard.
        rewrite calc_partial_outcome. simpl. now rewrite He.
      * left. exists e. intros shard.
        rewrite calc_partial_outcome. simpl dynamic_data.
        cbn [smf_bin_edges volume log_halo_masses]. rewrite He.
        now apply smf_loop_raises.
Qed.

Lemma total_sumstats_raise (e : exn) (others : list (result (list num))) :
  total_sumstats (Raise e) others = Raise e.
Proof.
  unfold total_sumstats. induction others as [| r rs IH]; simpl; auto.
Qed.

Lemma total_sumstats_cons (first r : result (list num))
    (rs : list (result (list num))) :
  total_sumstats first (r :: rs)
    = total_sumstats (let! t := first in
                      let! s := r in
                      Ok (elementwise_sum t s)) rs.
Proof. reflexivity. Qed.

Lemma worker_partial_permutation (params : list R)
    (self : MySMFModel) (s1 s2 : list R) :
  Permutation s1 s2 ->
  worker_partial_sumstats params self s1
    = worker_partial_sumstats params self s2.
Proof.
  intros Hperm.
  destruct (worker_partial_cases params self)
    as [(e & He) | (p & bins & Hb)].
  - now rewrite !He.
  - rewrite !Hb. f_equal. apply map_ext. intros b.
    now apply smf_bin_value_permutation.
Qed.

Lemma worker_partial_concat (params : list R)
    (self : MySMFModel) (shards : list (list R)) :
  forall shard0,
    total_sumstats (worker_partial_sumstats params self shard0)
      (map (worker_partial_sumstats params self) shards)
    = worker_partial_sumstats params self (concat (shard0 :: shards)).
Proof.
  destruct (worker_partial_cases params self)
    as [(e & He) | (p & bins & Hb)].
  - intros shard0. rewrite !He. apply total_sumstats_raise.
  - induction shards as [| shard1 shards IH]; intros shard0.
    + simpl. now rewrite app_nil_r.
    + simpl map. rewrite total_sumstats_cons.
      rewrite (Hb shard0), (Hb shard1). simpl py.bind.
      rewrite elementwise_sum_map.
      replace (concat (shard0 :: shard1 :: shards))
        with (concat ((shard0 ++ shard1) :: shards))
        by (simpl; now rewrite app_assoc).
      rewrite <- IH, (Hb (shard0 ++ shard1)).
      f_equal. f_equal. apply map_ext. intros b.
      symmetry. apply smf_bin_value_app.
Qed.

(** C1: the partial statistic is additive over the shards.  For every
    parameter vector, every sequence of bin edges and every positive
    volume, and for every way of distributing the halos of a full array
    over the workers of a group (a first shard and any number of others,
    together a rearrangement of the full array), the elementwise sum of
    the vectors [calc_partial_sumstats_from_params] returns on the
    workers, each holding its shard in [dynamic_data["log_halo_masses"]],
    is the vector it returns on one worker holding the full array; if the
    call raises on one, it raises the same exception on all. *)
Theorem partial_sumstats_additive_over_shards
    (params : list R) (self : MySMFModel)
    (shard0 : list R) (shards : list (list R)) (full : list R) :
  0 < volume (dynamic_data self) ->
  Permutation full (concat (shard0 :: shards)) ->
  total_sumstats (worker_partial_sumstats params self shard0)
    (map (worker_partial_sumstats params self) shards)
  = worker_partial_sumstats params self full.
Proof.
  intros _ Hperm.
  rewrite worker_partial_concat.
  symmetry. now apply worker_partial_permutation.
Qed.

(** ** The loss *)

Lemma sum_of_reals (l : list R) :
  jnp.sum (map Some l) = Some (fold_right Rplus 0 l).
Proof.
  induction l as [| x l IH]; simpl map.
  - reflexivity.
  - now rewrite sum_cons, IH.
Qed.

Lemma combine_map_both {A B C D : Type} (f : A -> C) (g : B -> D)
    (l : list A) (l' : list B) :
  combine (map f l) (map g l')
    = map (fun p => (f (fst p), g (snd p))) (combine l l').
Proof.
  revert l'. induction l as [| a l IH]; intros [| b l']; simpl;
    try reflexivity.
  now rewrite IH.
Qed.

Lemma map_log10_normal (l : list R) :
  Forall float32_normal l ->
  map jnp.log10 l = map (fun x => Some (log10_real x)) l.
Proof.
  intros Hpos. apply map_ext_in. intros x Hx.
  rewrite Forall_forall in Hpos. now apply log10_defined, Hpos.
Qed.

Lemma broadcast2_same_length (f : num -> num -> num) (xs ys : list num) :
  length xs = length ys ->
  jnp.broadcast2 f xs ys
    = Ok (map (fun p => f (fst p) (snd p)) (combine xs ys)).
Proof.
  intros Hlen. unfold jnp.broadcast2.
  now rewrite (proj2 (Nat.eqb_eq _ _) Hlen).
Qed.

Lemma fold_plus_nonneg (l : list R) :
  Forall (fun x => 0 <= x) l -> 0 <= fold_right Rplus 0 l.
Proof.
  induction 1 as [| x l Hx _ IH]; simpl; lra.
Qed.

Lemma fold_plus_zero (l : list R) :
  Forall (fun x => x = 0) l -> fold_right Rplus 0 l = 0.
Proof.
  induction 1 as [| x l Hx _ IH]; simpl; lra.
Qed.

Lemma squared_log_errors_nonneg (s t : list R) :
  Forall (fun x => 0 <= x) (squared_log_errors s t).
Proof.
  unfold squared_log_errors. apply Forall_map, Forall_forall.
  intros b _. apply pow2_ge_0.
Qed.

Lemma squared_log_errors_same (s : list R) :
  Forall (fun x => x = 0) (squared_log_errors s s).
Proof.
  unfold squared_log_errors. apply Forall_map.
  induction s as [| x s IH]; simpl; constructor; [simpl; ring | exact IH].
Qed.

Lemma length_squared_log_errors (s t : list R) :
  length s = length t -> length (squared_log_errors s t) = length s.
Proof.
  intros Hlen. unfold squared_log_errors.
  rewrite length_map, length_combine. lia.
Qed.

Lemma calc_loss_unfolded {Aux : Type} (sumstats : list R)
    (aux : option Aux) (self : MySMFModel) :
  fst (calc_loss_from_sumstats sumstats aux self)
  = let! diff :=
      jnp.broadcast2 nsub (map jnp.log10 sumstats)
        (map jnp.log10 (target_sumstats (dynamic_data self))) in
    Ok (jnp.mean (map nsquare diff)).
Proof.
  unfold calc_loss_from_sumstats, mbind, self_dynamic_data, call, mret.
  simpl. now destruct (jnp.broadcast2 _ _ _).
Qed.

(** The outcome of the loss on vectors of one length with entries in
    the range of float32. *)
Lemma calc_loss_outcome {Aux : Type} (sumstats : list R)
    (aux : option Aux) (self : MySMFModel) :
  Forall float32_normal sumstats ->
  Forall float32_normal (target_sumstats (dynamic_data self)) ->
  length sumstats = length (target_sumstats (dynamic_data self)) ->
  fst (calc_loss_from_sumstats sumstats aux self)
    = Ok (rdiv (fold_right Rplus 0
                  (squared_log_errors sumstats
                     (target_sumstats (dynamic_data self))))
               (INR (length sumstats))).
Proof.
  intros Hs Ht Hlen.
  unfold calc_loss_from_sumstats, mbind, self_dynamic_data, call, mret.
  simpl. rewrite broadcast2_same_length by (now rewrite !length_map).
  simpl. f_equal.
  rewrite (map_log10_normal _ Hs), (map_log10_normal _ Ht).
  rewrite combine_map_both, !map_map. simpl.
  unfold jnp.mean.
  replace (map _ (combine sumstats (target_sumstats (dynamic_data self))))
    with (map Some (squared_log_errors sumstats
                      (target_sumstats (dynamic_data self)))).
  - rewrite sum_of_reals, length_map, length_squared_log_errors by exact Hlen.
    reflexivity.
  - unfold squared_log_errors. rewrite map_map. apply map_ext.
    intros [a b]. simpl. f_equal. ring.
Qed.

(** C2, amended to vectors that have at least one entry and whose
    entries a float32 holds as positive numbers: when the entries of
    [sumstats] and of [dynamic_data["target_sumstats"]] lie in the
    normal range of float32 (from [2^-126] to [(2 - 2^-23) * 2^127]) and
    the two have the same length [K >= 1], [calc_loss_from_sumstats]
    returns the real number
    [(1/K) * sum_k (log10 (sumstats k) - log10 (target_sumstats k))^2];
    this number is not negative, and it is 0 when [sumstats] is
    [target_sumstats]. *)
Theorem loss_is_mean_squared_log_error
    (Aux : Type) (sumstats : list R) (aux : option Aux)
    (self : MySMFModel) :
  (1 <= length sumstats)%nat ->
  Forall float32_normal sumstats ->
  Forall float32_normal (target_sumstats (dynamic_data self)) ->
  length sumstats = length (target_sumstats (dynamic_data self)) ->
  fst (calc_loss_from_sumstats sumstats aux self)
    = Ok (Some (mean_squared_log_error sumstats
                  (target_sumstats (dynamic_data self)))) /\
  0 <= mean_squared_log_error sumstats (target_sumstats (dynamic_data self)) /\
  (sumstats = target_sumstats (dynamic_data self) ->
   fst (calc_loss_from_sumstats sumstats aux self) = Ok (Some 0)).
Proof.
  intros HK Hs Ht Hlen.
  assert (HKpos : 0 < INR (length sumstats)) by (apply lt_0_INR; lia).
  assert (Hout : fst (calc_loss_from_sumstats sumstats aux self)
                 = Ok (Some (mean_squared_log_error sumstats
                               (target_sumstats (dynamic_data self))))).
  { rewrite (calc_loss_outcome sumstats aux self Hs Ht Hlen).
    rewrite rdiv_defined by lra. unfold mean_squared_log_error.
    do 2 f_equal. field. lra. }
  split; [exact Hout |]. split.
  - unfold mean_squared_log_error. apply Rmult_le_pos.
    + left. unfold Rdiv. rewrite Rmult_1_l. now apply Rinv_0_lt_compat.
    + apply fold_plus_nonneg, squared_log_errors_nonneg.
  - intros Heq. rewrite Hout. do 2 f_equal.
    unfold mean_squared_log_error. rewrite <- Heq.
    rewrite (fold_plus_zero _ (squared_log_errors_same sumstats)). ring.
Qed.

(** C2 as it is stated fails in two ways.  On the empty vector: with
    no entry in [sumstats] and none in [target_sumstats] the entries are
    (vacuously) positive, the lengths agree and [sumstats] is
    [target_sumstats], yet the mean of the empty array of squared errors
    is not a real number.  And on a positive entry below the range of
    float32: [1e-50] is stored as zero, its logarithm is -inf, and the
    loss against the target [1] is not a real number either. *)
Lemma loss_of_positive_sumstats_is_not_always_a_real :
  (Forall (fun x => 0 < x) (@nil R) /\
   length (@nil R)
     = length (target_sumstats
                 (dynamic_data (MySMFModel_init (mkdict [] [] 1 [])))) /\
   @nil R = target_sumstats
              (dynamic_data (MySMFModel_init (mkdict [] [] 1 []))) /\
   fst (calc_loss_from_sumstats (@nil R) (@None unit)
          (MySMFModel_init (mkdict [] [] 1 []))) = Ok None) /\
  (Forall (fun x => 0 < x) [1e-50] /\
   Forall (fun x => 0 < x)
     (target_sumstats
        (dynamic_data (MySMFModel_init (mkdict [] [9; 10] 1 [1])))) /\
   length [1e-50]
     = length (target_sumstats
                 (dynamic_data (MySMFModel_init (mkdict [] [9; 10] 1 [1])))) /\
   fst (calc_loss_from_sumstats [1e-50] (@None unit)
          (MySMFModel_init (mkdict [] [9; 10] 1 [1]))) = Ok None).
Proof.
  split.
  - repeat split; try constructor.
    unfold calc_loss_from_sumstats, mbind, self_dynamic_data, call, mret.
    simpl. unfold jnp.mean. simpl. now rewrite rdiv_by_zero.
  - split; [repeat constructor; lra |].
    split; [simpl; repeat constructor; lra |].
    split; [reflexivity |].
    rewrite calc_loss_unfolded. cbn [target_sumstats dynamic_data
      MySMFModel_init map].
    rewrite log10_of_underflow. reflexivity.
Qed.

(** ** Splitting an array into sections *)

Lemma cumsum_from_nth (xs : list nat) :
  forall acc i,
    (i < length xs)%nat ->
    nth i (np.cumsum_from acc xs) 0%nat
      = (acc + list_sum (firstn (S i) xs))%nat.
Proof.
  induction xs as [| x xs IH]; intros acc i Hi; simpl in Hi; [lia |].
  destruct i as [| i].
  - simpl. lia.
  - cbn [np.cumsum_from nth]. rewrite IH by lia.
    change (firstn (S (S i)) (x :: xs)) with (x :: firstn (S i) xs).
    cbn [list_sum fold_right]. unfold list_sum. lia.
Qed.

Lemma list_sum_repeat (a k : nat) : list_sum (repeat a k) = (k * a)%nat.
Proof. induction k as [| k IH]; simpl; [reflexivity | rewrite IH; lia]. Qed.

Lemma firstn_repeat (a k i : nat) :
  firstn i (repeat a k) = repeat a (Nat.min i k).
Proof.
  revert i. induction k as [| k IH]; intros [| i]; simpl; try reflexivity.
  now rewrite IH.
Qed.

Lemma section_sizes_prefix_sum (q extras S i : nat) :
  (extras <= S)%nat -> (i <= S)%nat ->
  list_sum (firstn i (repeat (q + 1)%nat extras ++ repeat q (S - extras)))
    = (i * q + Nat.min i extras)%nat.
Proof.
  intros He Hi.
  rewrite firstn_app, list_sum_app, !firstn_repeat, !list_sum_repeat.
  rewrite repeat_length.
  destruct (Nat.le_gt_cases i extras) as [Hle | Hgt].
  - rewrite (Nat.min_l i extras) by lia.
    replace (i - extras)%nat with 0%nat by lia. simpl. lia.
  - rewrite (Nat.min_r i extras) by lia.
    rewrite (Nat.min_l (i - extras) (S - extras)) by lia. nia.
Qed.

Lemma div_points_nth (n S i : nat) :
  (S <> 0)%nat -> (i <= S)%nat ->
  nth i (np.cumsum ([0%nat] ++ repeat (n / S + 1)%nat (n mod S)
                           ++ repeat (n / S)%nat (S - n mod S))) 0%nat
    = shard_offset n S i.
Proof.
  intros HS Hi. unfold np.cumsum.
  pose proof (Nat.mod_upper_bound n S HS) as Hmod.
  rewrite cumsum_from_nth.
  - change (firstn (Datatypes.S i) ([0%nat] ++ ?l))
      with (0%nat :: firstn i l).
    cbn [list_sum fold_right]. unfold shard_offset.
    pose proof (section_sizes_prefix_sum (n / S) (n mod S) S i) as H.
    unfold list_sum in H. rewrite H by lia. lia.
  - simpl. rewrite length_app, !repeat_length. lia.
Qed.

Lemma array_split_sections {A : Type} (ary : list A) (S : nat) :
  (S <> 0)%nat ->
  np.array_split ary S
    = Ok (map (fun r => py.slice ary (shard_offset (length ary) S r)
                                    (shard_offset (length ary) S (r + 1)))
              (seq 0 S)).
Proof.
  intros HS. unfold np.array_split.
  rewrite (proj2 (Nat.eqb_neq _ _) HS). cbv zeta. f_equal.
  apply map_ext_in. intros r Hr. apply in_seq in Hr.
  rewrite !div_points_nth by lia. reflexivity.
Qed.

Lemma shard_offset_0 (n S : nat) : shard_offset n S 0 = 0%nat.
Proof. unfold shard_offset. simpl. lia. Qed.

Lemma shard_offset_last (n S : nat) :
  (S <> 0)%nat -> shard_offset n S S = n.
Proof.
  intros HS. unfold shard_offset.
  pose proof (Nat.mod_upper_bound n S HS).
  pose proof (Nat.div_mod_eq n S).
  rewrite Nat.min_r by lia. lia.
Qed.

Lemma shard_offset_step (n S r : nat) :
  shard_offset n S (r + 1) = (shard_offset n S r + shard_size n S r)%nat.
Proof.
  unfold shard_offset, shard_size.
  destruct (Nat.ltb_spec r (n mod S)); nia.
Qed.

Lemma shard_offset_mono (n S r1 r2 : nat) :
  (r1 <= r2)%nat -> (shard_offset n S r1 <= shard_offset n S r2)%nat.
Proof. intros H. unfold shard_offset. nia. Qed.

Lemma shard_offset_bound (n S r : nat) :
  (S <> 0)%nat -> (r <= S)%nat -> (shard_offset n S r <= n)%nat.
Proof.
  intros HS Hr. rewrite <- (shard_offset_last n S HS) at 2.
  now apply shard_offset_mono.
Qed.

Lemma shard_sizes_balanced (n S r1 r2 : nat) :
  (shard_size n S r1 <= shard_size n S r2 + 1)%nat.
Proof.
  unfold shard_size.
  destruct (r1 <? n mod S), (r2 <? n mod S); lia.
Qed.

Lemma firstn_skipn_app {A : Type} (l : list A) (a b : nat) :
  firstn a l ++ firstn b (skipn a l) = firstn (a + b) l.
Proof.
  revert a. induction l as [| x l IH]; intros [| a]; simpl;
    try reflexivity.
  - now rewrite firstn_nil.
  - now rewrite IH.
Qed.

Lemma concat_slices {A : Type} (l : list A) (off : nat -> nat) (S : nat) :
  off 0%nat = 0%nat ->
  (forall r, (r < S)%nat -> (off r <= off (r + 1))%nat) ->
  concat (map (fun r => py.slice l (off r) (off (r + 1)%nat)) (seq 0 S))
    = firstn (off S) l.
Proof.
  intros H0. induction S as [| S IH]; intros Hmono.
  - simpl. now rewrite H0.
  - rewrite seq_S, map_app, concat_app, IH by (intros; apply Hmono; lia).
    simpl. rewrite app_nil_r. unfold py.slice.
    pose proof (Hmono S (Nat.lt_succ_diag_r S)) as Hstep.
    rewrite firstn_skipn_app. f_equal.
    replace (S + 1)%nat with (Datatypes.S S) in * by lia. lia.
Qed.

Lemma length_slice {A : Type} (l : list A) (a b : nat) :
  (b <= length l)%nat -> length (py.slice l a b) = (b - a)%nat.
Proof.
  intros Hb. unfold py.slice. rewrite length_firstn, length_skipn. lia.
Qed.

Lemma nth_error_slice {A : Type} (l : list A) (a b j : nat) :
  (j < b - a)%nat ->
  nth_error (py.slice l a b) j = nth_error l (a + j).
Proof.
  intros Hj. unfold py.slice.
  rewrite nth_error_firstn.
  destruct (Nat.ltb_spec j (b - a)); [| lia].
  apply nth_error_skipn.
Qed.

Lemma getitem_map_seq {A : Type} (g : nat -> A) (S r : nat) :
  (r < S)%nat -> py.getitem (map g (seq 0 S)) r = Ok (g r).
Proof.
  intros Hr. unfold py.getitem.
  rewrite nth_error_map, nth_error_seq.
  destruct (Nat.ltb_spec r S); [reflexivity | lia].
Qed.

(** Every position below [n] falls into the block of exactly one rank. *)
Lemma shard_of_position (n S i : nat) :
  (S <> 0)%nat -> (i < n)%nat ->
  exists r, (r < S)%nat /\
            (shard_offset n S r <= i < shard_offset n S (r + 1))%nat /\
            forall r', (r' < S)%nat ->
                       (shard_offset n S r' <= i
                        < shard_offset n S (r' + 1))%nat ->
                       r' = r.
Proof.
  intros HS Hi.
  assert (Hex : forall k, (k <= S)%nat -> (i < shard_offset n S k)%nat ->
                exists r, (r < k)%nat /\
                  (shard_offset n S r <= i < shard_offset n S (r + 1))%nat).
  { induction k as [| k IH]; intros Hk Hlt.
    - rewrite shard_offset_0 in Hlt. lia.
    - destruct (Nat.le_gt_cases (shard_offset n S k) i) as [Hge | Hlt'].
      + exists k. replace (k + 1)%nat with (Datatypes.S k) by lia. lia.
      + destruct IH as (r & Hr & Hin); [lia | exact Hlt' |].
        exists r. split; [lia | exact Hin]. }
  destruct (Hex S (Nat.le_refl S)) as (r & Hr & Hin).
  { now rewrite shard_offset_last. }
  exists r. split; [exact Hr |]. split; [exact Hin |].
  intros r' Hr' Hin'.
  destruct (Nat.lt_trichotomy r' r) as [Hlt | [Heq | Hgt]]; [| exact Heq |].
  - pose proof (shard_offset_mono n S (r' + 1) r ltac:(lia)). lia.
  - pose proof (shard_offset_mono n S (r + 1) r' ltac:(lia)). lia.
Qed.

(** ** The halo masses of a rank *)

Lemma linspace_returns (start stop : R) (n : Z) :
  (0 <= n)%Z ->
  exists q, jnp.linspace start stop n = Ok q /\ length q = Z.to_nat n.
Proof.
  intros Hn. unfold jnp.linspace.
  destruct (Z.ltb_spec n 0); [lia |].
  destruct (Z.to_nat n) as [| [| div]].
  - now exists [].
  - now exists [start].
  - eexists. split; [reflexivity |].
    rewrite length_app, length_map, length_seq. simpl. lia.
Qed.

Lemma mhalo_array_returns (num_halos slope : Z) (mmin qmax : R) :
  (0 <= num_halos)%Z -> (slope + 1 <> 0)%Z ->
  exists mhalo,
    mhalo_array num_halos slope mmin qmax = Ok mhalo /\
    length mhalo = Z.to_nat num_halos.
Proof.
  intros Hn Hslope. unfold mhalo_array.
  destruct (linspace_returns 0 qmax num_halos Hn) as (q & Hq & Hlen).
  rewrite Hq. simpl. unfold py.truediv.
  rewrite (proj2 (Z.eqb_neq _ _) Hslope). simpl.
  eexists. split; [reflexivity |]. now rewrite length_map.
Qed.

Lemma nth_map_seq {A : Type} (g : nat -> A) (S r : nat) (d : A) :
  (r < S)%nat -> nth r (map g (seq 0 S)) d = g r.
Proof.
  intros Hr. apply nth_error_nth.
  rewrite nth_error_map, nth_error_seq.
  destruct (Nat.ltb_spec r S); [reflexivity | lia].
Qed.

Lemma load_halo_masses_shard (COMM_WORLD : Comm) (num_halos slope : Z)
    (mmin qmax : R) (comm : option Comm) (mhalo : list num) :
  mhalo_array num_halos slope mmin qmax = Ok mhalo ->
  (rank (comm_or_world COMM_WORLD comm)
   < size (comm_or_world COMM_WORLD comm))%nat ->
  load_halo_masses COMM_WORLD num_halos slope mmin qmax comm
    = Ok (py.slice mhalo
            (shard_offset (length mhalo)
               (size (comm_or_world COMM_WORLD comm))
               (rank (comm_or_world COMM_WORLD comm)))
            (shard_offset (length mhalo)
               (size (comm_or_world COMM_WORLD comm))
               (rank (comm_or_world COMM_WORLD comm) + 1))).
Proof.
  intros Hm Hrank. unfold load_halo_masses. rewrite Hm. simpl.
  rewrite array_split_sections by lia. simpl.
  exact (getitem_map_seq
           (fun r => py.slice mhalo
                       (shard_offset (length mhalo)
                          (size (comm_or_world COMM_WORLD comm)) r)
                       (shard_offset (length mhalo)
                          (size (comm_or_world COMM_WORLD comm)) (r + 1)))
           _ _ Hrank).
Qed.

(** C4: for [num_halos >= 1] and a communicator of size [S >= 1],
    [load_halo_masses] on rank [r] returns the [r]-th of [S] contiguous
    blocks of the array of [num_halos] masses; block [r] has
    [num_halos / S] entries, one more when [r < num_halos mod S], so two
    blocks differ in length by at most one; the blocks in ascending rank
    order concatenate to the whole array, and every position of the
    array lies in the block of exactly one rank. *)
Theorem load_halo_masses_shards_partition_the_array
    (num_halos slope : Z) (mmin qmax : R) (S : nat) :
  (1 <= num_halos)%Z -> (slope + 1 <> 0)%Z -> (1 <= S)%nat ->
  exists (mhalo : list num) (shards : list (list num)),
    mhalo_array num_halos slope mmin qmax = Ok mhalo /\
    length mhalo = Z.to_nat num_halos /\
    length shards = S /\
    (forall COMM_WORLD comm,
        size (comm_or_world COMM_WORLD comm) = S ->
        (rank (comm_or_world COMM_WORLD comm) < S)%nat ->
        load_halo_masses COMM_WORLD num_halos slope mmin qmax comm
          = Ok (nth (rank (comm_or_world COMM_WORLD comm)) shards [])) /\
    (forall r, (r < S)%nat ->
        nth r shards []
          = py.slice mhalo (shard_offset (length mhalo) S r)
                           (shard_offset (length mhalo) S (r + 1)) /\
        length (nth r shards [])
          = (length mhalo / S
             + (if r <? length mhalo mod S then 1 else 0))%nat /\
        forall j, (j < length (nth r shards []))%nat ->
                  nth_error (nth r shards []) j
                    = nth_error mhalo (shard_offset (length mhalo) S r + j)) /\
    (forall r1 r2, (r1 < S)%nat -> (r2 < S)%nat ->
        (length (nth r1 shards []) <= length (nth r2 shards []) + 1)%nat) /\
    concat shards = mhalo /\
    (forall i, (i < length mhalo)%nat ->
        exists! r, (r < S)%nat /\
                   (shard_offset (length mhalo) S r <= i
                    < shard_offset (length mhalo) S r
                      + length (nth r shards []))%nat).
Proof.
  intros Hn Hslope HS.
  destruct (mhalo_array_returns num_halos slope mmin qmax)
    as (mhalo & Hm & Hlen); [lia | exact Hslope |].
  assert (HS0 : (S <> 0)%nat) by lia.
  set (n := length mhalo).
  set (block := fun r => py.slice mhalo (shard_offset n S r)
                                        (shard_offset n S (r + 1))).
  assert (Hblock_len : forall r, (r < S)%nat ->
                                 length (block r) = shard_size n S r).
  { intros r Hr. unfold block. rewrite length_slice.
    - rewrite shard_offset_step. lia.
    - apply shard_offset_bound; lia. }
  exists mhalo, (map block (seq 0 S)). fold n.
  split; [exact Hm |]. split; [exact Hlen |].
  split; [now rewrite length_map, length_seq |].
  split; [| split; [| split; [| split]]].
  - intros world comm Hsize Hrank. rewrite nth_map_seq by exact Hrank.
    rewrite (load_halo_masses_shard world _ _ _ _ comm mhalo Hm)
      by (rewrite Hsize; exact Hrank).
    now rewrite Hsize.
  - intros r Hr. rewrite nth_map_seq by exact Hr.
    split; [reflexivity |]. split; [now apply Hblock_len |].
    intros j Hj. rewrite Hblock_len in Hj by exact Hr.
    unfold block. apply nth_error_slice.
    rewrite shard_offset_step. lia.
  - intros r1 r2 Hr1 Hr2. rewrite !nth_map_seq by assumption.
    rewrite !Hblock_len by assumption. apply shard_sizes_balanced.
  - unfold block. rewrite concat_slices.
    + rewrite shard_offset_last by exact HS0. apply firstn_all.
    + apply shard_offset_0.
    + intros r _. apply shard_offset_mono. lia.
  - intros i Hi.
    destruct (shard_of_position n S i HS0 Hi) as (r & Hr & Hin & Huniq).
    exists r. split.
    + split; [exact Hr |]. rewrite nth_map_seq, Hblock_len by exact Hr.
      now rewrite <- shard_offset_step.
    + intros r' (Hr' & Hin'). symmetry. apply Huniq; [exact Hr' |].
      rewrite nth_map_seq, Hblock_len in Hin' by exact Hr'.
      now rewrite shard_offset_step.
Qed.

(** ** The order of the halo masses *)

Lemma strongly_sorted_app (l1 l2 : list R) :
  StronglySorted Rle (l1 ++ l2) <->
  StronglySorted Rle l1 /\ StronglySorted Rle l2 /\
  (forall x y, In x l1 -> In y l2 -> x <= y).
Proof.
  induction l1 as [| a l1 IH]; simpl.
  - split.
    + intros H. repeat split; [constructor | exact H | intros x y []].
    + now intros (_ & H & _).
  - split.
    + intros H. apply StronglySorted_inv in H. destruct H as (Hss & Hall).
      apply IH in Hss. destruct Hss as (H1 & H2 & H12).
      rewrite Forall_app in Hall. destruct Hall as (Ha1 & Ha2).
      repeat split; [constructor; assumption | exact H2 |].
      intros x y [<- | Hx] Hy.
      * rewrite Forall_forall in Ha2. now apply Ha2.
      * now apply H12.
    + intros (H1 & H2 & H12).
      apply StronglySorted_inv in H1. destruct H1 as (H1 & Ha1).
      constructor.
      * apply IH. repeat split; [exact H1 | exact H2 |].
        intros x y Hx Hy. apply H12; [now right | exact Hy].
      * apply Forall_app. split; [exact Ha1 |].
        apply Forall_forall. intros y Hy. apply H12; [now left | exact Hy].
Qed.

Lemma strongly_sorted_map_seq (f : nat -> R) (len : nat) :
  forall a,
    (forall i j, (a <= i)%nat -> (i <= j)%nat -> (j < a + len)%nat ->
                 f i <= f j) ->
    StronglySorted Rle (map f (seq a len)).
Proof.
  induction len as [| len IH]; intros a Hmono; simpl.
  - constructor.
  - constructor.
    + apply IH. intros i j Hi Hij Hj. apply Hmono; lia.
    + apply Forall_map, Forall_forall. intros k Hk. apply in_seq in Hk.
      apply Hmono; lia.
Qed.

Lemma strongly_sorted_map (g : R -> R) (l : list R) :
  StronglySorted Rle l ->
  (forall x y, In x l -> In y l -> x <= y -> g x <= g y) ->
  StronglySorted Rle (map g l).
Proof.
  induction 1 as [| a l Hss IH Hall]; intros Hg; simpl.
  - constructor.
  - constructor.
    + apply IH. intros x y Hx Hy. apply Hg; now right.
    + apply Forall_map, Forall_forall. intros y Hy.
      rewrite Forall_forall in Hall.
      apply Hg; [now left | now right | now apply Hall].
Qed.

Lemma strongly_sorted_firstn (l : list R) (k : nat) :
  StronglySorted Rle l -> StronglySorted Rle (firstn k l).
Proof.
  intros H. rewrite <- (firstn_skipn k l) in H.
  now apply strongly_sorted_app in H.
Qed.

Lemma strongly_sorted_skipn (l : list R) (k : nat) :
  StronglySorted Rle l -> StronglySorted Rle (skipn k l).
Proof.
  intros H. rewrite <- (firstn_skipn k l) in H.
  now apply strongly_sorted_app in H.
Qed.

Lemma strongly_sorted_hd (l : list R) (x : R) :
  StronglySorted Rle l -> In x l -> hd 0 l <= x.
Proof.
  intros H Hx. destruct l as [| a l]; [contradiction |].
  apply StronglySorted_inv in H. destruct H as (_ & Hall).
  destruct Hx as [<- | Hx]; simpl; [lra |].
  rewrite Forall_forall in Hall. now apply Hall.
Qed.

Lemma strongly_sorted_last (l : list R) (x : R) :
  StronglySorted Rle l -> In x l -> x <= last l 0.
Proof.
  intros H Hx. destruct (exists_last (l := l)) as (l' & a & ->).
  { intros ->. contradiction. }
  rewrite last_last. apply strongly_sorted_app in H.
  destruct H as (_ & _ & H12).
  apply in_app_or in Hx. destruct Hx as [Hx | [<- | []]]; [| lra].
  apply H12; [exact Hx | now left].
Qed.

(** Lists of shards whose concatenation is sorted. *)
Lemma concat_sorted_each (ls : list (list R)) :
  StronglySorted Rle (concat ls) ->
  forall r, StronglySorted Rle (nth r ls []).
Proof.
  induction ls as [| l ls IH]; intros H r; simpl in H.
  - destruct r; constructor.
  - apply strongly_sorted_app in H. destruct H as (Hl & Hls & _).
    destruct r as [| r]; simpl; [exact Hl | now apply IH].
Qed.

Lemma concat_sorted_across (ls : list (list R)) :
  StronglySorted Rle (concat ls) ->
  forall r1 r2 x y,
    (r1 < r2)%nat -> In x (nth r1 ls []) -> In y (nth r2 ls []) -> x <= y.
Proof.
  induction ls as [| l ls IH]; intros H r1 r2 x y Hr Hx Hy; simpl in H.
  - destruct r1; contradiction.
  - apply strongly_sorted_app in H. destruct H as (_ & Hls & Hcross).
    destruct r2 as [| r2]; [lia |].
    destruct r1 as [| r1]; simpl in Hx, Hy.
    + apply Hcross; [exact Hx |].
      destruct (Nat.lt_ge_cases r2 (length ls)) as [Hlt | Hge].
      * apply in_concat. exists (nth r2 ls []). split; [| exact Hy].
        now apply nth_In.
      * rewrite nth_overflow in Hy by exact Hge. contradiction.
    + apply (IH Hls r1 r2); [lia | exact Hx | exact Hy].
Qed.

Lemma slice_map {A B : Type} (f : A -> B) (l : list A) (a b : nat) :
  py.slice (map f l) a b = map f (py.slice l a b).
Proof. unfold py.slice. now rewrite skipn_map, firstn_map. Qed.

(** The samples [q] for a top value below one. *)
Lemma linspace_from_zero (qmax : R) (n : Z) :
  0 <= qmax -> (0 <= n)%Z ->
  exists qs,
    jnp.linspace 0 qmax n = Ok qs /\
    length qs = Z.to_nat n /\
    StronglySorted Rle qs /\
    Forall (fun q => 0 <= q <= qmax) qs.
Proof.
  intros Hq Hn. unfold jnp.linspace.
  destruct (Z.ltb_spec n 0); [lia |].
  destruct (Z.to_nat n) as [| [| d]].
  - exists []. repeat split; constructor.
  - exists [0]. split; [reflexivity |]. split; [reflexivity |].
    split; [repeat constructor |]. constructor; [lra | constructor].
  - remember (S d) as div eqn:Ediv.
    set (f := fun i : nat =>
                0 * (1 - INR i / INR div) + qmax * (INR i / INR div)).
    assert (Hdiv : 0 < INR div) by (apply lt_0_INR; lia).
    assert (Hf : forall i, f i = qmax * (INR i / INR div))
      by (intros i; unfold f; ring).
    assert (Hfrac : forall i j, (i <= j)%nat ->
                                INR i / INR div <= INR j / INR div).
    { intros i j Hij. apply le_INR in Hij. unfold Rdiv.
      apply Rmult_le_compat_r; [| exact Hij].
      left. now apply Rinv_0_lt_compat. }
    assert (Hone : INR div / INR div = 1) by (field; lra).
    assert (Hzero : INR 0 / INR div = 0) by (simpl; field; lra).
    assert (Hrange : forall i, (i <= div)%nat -> 0 <= f i <= qmax).
    { intros i Hi. rewrite Hf.
      pose proof (Hfrac 0%nat i ltac:(lia)) as H0.
      pose proof (Hfrac i div Hi) as H1.
      rewrite Hzero in H0. rewrite Hone in H1. split; nra. }
    exists (map f (seq 0 div) ++ [qmax]).
    split; [reflexivity |].
    split; [rewrite length_app, length_map, length_seq; simpl; lia |].
    split.
    + apply strongly_sorted_app.
      split; [| split; [repeat constructor |]].
      * apply strongly_sorted_map_seq. intros i j _ Hij _.
        rewrite !Hf. pose proof (Hfrac i j Hij). nra.
      * intros x y Hx [<- | []]. apply in_map_iff in Hx.
        destruct Hx as (i & <- & Hi). apply in_seq in Hi.
        apply Hrange. lia.
    + apply Forall_app. split.
      * apply Forall_map, Forall_forall. intros i Hi. apply in_seq in Hi.
        apply Hrange. lia.
      * constructor; [lra | constructor].
Qed.

Lemma default_exponent : py.truediv 1 (default_slope + 1) = Ok (-1).
Proof.
  unfold py.truediv, default_slope. simpl. f_equal. lra.
Qed.

Lemma power_minus_one (x : R) : 0 < x -> jnp.power x (-1) = Some (/ x).
Proof.
  intros Hx. unfold jnp.power.
  destruct (Rlt_dec 0 x) as [_ | Hn]; [| contradiction].
  f_equal. replace (-1) with (- (1)) by lra.
  now rewrite Rpower_Ropp, Rpower_1.
Qed.

Lemma default_mmin_pos : 0 < default_mmin.
Proof. unfold default_mmin. lra. Qed.

Lemma inverse_increasing (mmin q1 q2 : R) :
  0 <= mmin -> q1 <= q2 -> q2 < 1 ->
  mmin * / (1 - q1) <= mmin * / (1 - q2).
Proof.
  intros Hm Hq H2. apply Rmult_le_compat_l; [exact Hm |].
  apply Rinv_le_contravar; lra.
Qed.

(** With the default slope the masses are [mmin / (1 - q)], positive and
    in ascending order. *)
Lemma mhalo_array_default (num_halos : Z) (qmax : R) :
  0 <= qmax < 1 -> (0 <= num_halos)%Z ->
  exists ms,
    mhalo_array num_halos default_slope default_mmin qmax
      = Ok (map Some ms) /\
    length ms = Z.to_nat num_halos /\
    StronglySorted Rle ms /\
    Forall (fun m => 0 < m) ms.
Proof.
  intros (Hq0 & Hq1) Hn. unfold mhalo_array.
  destruct (linspace_from_zero qmax num_halos Hq0 Hn)
    as (qs & Hqs & Hlen & Hsorted & Hrange).
  rewrite Hqs, default_exponent. simpl.
  exists (map (fun q => default_mmin * / (1 - q)) qs).
  rewrite Forall_forall in Hrange. pose proof default_mmin_pos as Hmmin.
  split; [| split; [| split]].
  - f_equal. rewrite map_map. apply map_ext_in. intros q Hq.
    rewrite power_minus_one; [reflexivity |].
    specialize (Hrange q Hq). lra.
  - now rewrite length_map.
  - apply strongly_sorted_map; [exact Hsorted |].
    intros x y Hx Hy Hxy.
    apply inverse_increasing; [lra | exact Hxy |].
    specialize (Hrange y Hy). lra.
  - apply Forall_map, Forall_forall. intros q Hq.
    specialize (Hrange q Hq).
    apply Rmult_lt_0_compat; [exact Hmmin |].
    apply Rinv_0_lt_compat. lra.
Qed.

(** C10: with the default slope and minimum mass and [0 <= qmax < 1],
    the halo masses are sorted in ascending order across the ranks of a
    communicator of size [S]: the shards of the ranks, in rank order,
    concatenate to an ascending array, so each shard is ascending and no
    entry of the shard of a rank exceeds an entry of the shard of the
    next rank; and when every rank has a non-empty shard ([S <=
    num_halos]) the first entry of the shard of rank 0 is the least of
    all masses and the last entry of the shard of the last rank is the
    greatest. *)
Theorem halo_masses_ascending_across_ranks
    (num_halos : Z) (qmax : R) (S : nat) :
  0 <= qmax < 1 -> (0 <= num_halos)%Z -> (1 <= S)%nat ->
  exists masses : list (list R),
    length masses = S /\
    (forall COMM_WORLD comm,
        size (comm_or_world COMM_WORLD comm) = S ->
        (rank (comm_or_world COMM_WORLD comm) < S)%nat ->
        load_halo_masses COMM_WORLD num_halos default_slope default_mmin
          qmax comm
        = Ok (map Some (nth (rank (comm_or_world COMM_WORLD comm))
                          masses []))) /\
    StronglySorted Rle (concat masses) /\
    (forall r, (r < S)%nat -> StronglySorted Rle (nth r masses [])) /\
    (forall r x y,
        (r + 1 < S)%nat ->
        In x (nth r masses []) -> In y (nth (r + 1) masses []) -> x <= y) /\
    ((Z.of_nat S <= num_halos)%Z ->
     (forall r, (r < S)%nat -> nth r masses [] <> []) /\
     (forall r x,
         (r < S)%nat -> In x (nth r masses []) ->
         hd 0 (nth 0 masses []) <= x <= last (nth (S - 1) masses []) 0)).
Proof.
  intros Hq Hn HS.
  destruct (mhalo_array_default num_halos qmax Hq Hn)
    as (ms & Hm & Hlen & Hsorted & _).
  assert (HS0 : (S <> 0)%nat) by lia.
  set (n := length ms).
  set (block := fun r => py.slice ms (shard_offset n S r)
                                     (shard_offset n S (r + 1))).
  assert (Hconcat : concat (map block (seq 0 S)) = ms).
  { unfold block. rewrite concat_slices.
    - rewrite shard_offset_last by exact HS0. apply firstn_all.
    - apply shard_offset_0.
    - intros r _. apply shard_offset_mono. lia. }
  assert (Hss : StronglySorted Rle (concat (map block (seq 0 S))))
    by now rewrite Hconcat.
  exists (map block (seq 0 S)).
  split; [now rewrite length_map, length_seq |].
  split; [| split; [exact Hss | split; [| split]]].
  - intros world comm Hsize Hrank.
    rewrite (load_halo_masses_shard world _ _ _ _ comm _ Hm)
      by (rewrite Hsize; exact Hrank).
    rewrite Hsize, length_map, slice_map, nth_map_seq by exact Hrank.
    reflexivity.
  - intros r _. now apply concat_sorted_each.
  - intros r x y Hr. apply (concat_sorted_across _ Hss). lia.
  - intros Hfull.
    assert (Hnonempty : forall r, (r < S)%nat ->
                                  nth r (map block (seq 0 S)) [] <> []).
    { intros r Hr Hnil. apply (f_equal (@length R)) in Hnil.
      rewrite nth_map_seq in Hnil by exact Hr. unfold block in Hnil.
      rewrite length_slice in Hnil
        by (apply shard_offset_bound; [exact HS0 | lia]).
      rewrite shard_offset_step in Hnil. unfold shard_size in Hnil.
      assert (1 <= n / S)%nat
        by (apply Nat.div_le_lower_bound; unfold n; lia).
      simpl in Hnil. lia. }
    split; [exact Hnonempty |].
    intros r x Hr Hx. split.
    + destruct r as [| r].
      * apply strongly_sorted_hd; [now apply concat_sorted_each | exact Hx].
      * apply (concat_sorted_across _ Hss 0%nat (Datatypes.S r));
          [lia | | exact Hx].
        pose proof (Hnonempty 0%nat ltac:(lia)) as H0.
        destruct (nth 0 (map block (seq 0 S)) []); [contradiction |].
        now left.
    + destruct (Nat.eq_dec r (S - 1)) as [-> | Hne].
      * apply strongly_sorted_last; [now apply concat_sorted_each | exact Hx].
      * apply (concat_sorted_across _ Hss r (S - 1)%nat);
          [lia | exact Hx |].
        pose proof (Hnonempty (S - 1)%nat ltac:(lia)) as Hl.
        destruct (exists_last Hl) as (l' & a & ->).
        rewrite last_last. apply in_or_app. right. now left.
Qed.

(** ** The logarithmic masses the driver stores *)

Lemma ln_10_pos : 0 < ln 10.
Proof. rewrite <- ln_1. apply ln_increasing; lra. Qed.

Lemma log10_real_increasing (x y : R) :
  0 < x -> x <= y -> log10_real x <= log10_real y.
Proof.
  intros Hx Hxy. unfold log10_real, Rdiv.
  apply Rmult_le_compat_r; [left; apply Rinv_0_lt_compat, ln_10_pos |].
  destruct Hxy as [Hlt | ->]; [left; now apply ln_increasing | lra].
Qed.

Lemma Forall_firstn {A : Type} (P : A -> Prop) (l : list A) :
  Forall P l -> forall n, Forall P (firstn n l).
Proof.
  induction 1 as [| x l Hx _ IH]; intros [| n]; simpl; constructor; auto.
Qed.

Lemma Forall_skipn {A : Type} (P : A -> Prop) (l : list A) :
  Forall P l -> forall n, Forall P (skipn n l).
Proof.
  induction 1 as [| x l Hx Hl IH]; intros [| n]; simpl; auto.
Qed.

Lemma Forall_slice {A : Type} (P : A -> Prop) (l : list A) (a b : nat) :
  Forall P l -> Forall P (py.slice l a b).
Proof.
  intros H. unfold py.slice. now apply Forall_firstn, Forall_skipn.
Qed.

(** The same masses lie between [mmin] and [mmin / (1 - qmax)]. *)
Lemma mhalo_array_default_range (num_halos : Z) (qmax : R) :
  0 <= qmax < 1 -> (0 <= num_halos)%Z ->
  exists ms,
    mhalo_array num_halos default_slope default_mmin qmax
      = Ok (map Some ms) /\
    Forall (fun m => default_mmin <= m <= default_mmin / (1 - qmax)) ms.
Proof.
  intros (Hq0 & Hq1) Hn. unfold mhalo_array.
  destruct (linspace_from_zero qmax num_halos Hq0 Hn)
    as (qs & Hqs & _ & _ & Hrange).
  rewrite Hqs, default_exponent. simpl.
  exists (map (fun q => default_mmin * / (1 - q)) qs).
  rewrite Forall_forall in Hrange. pose proof default_mmin_pos as Hmmin.
  split.
  - f_equal. rewrite map_map. apply map_ext_in. intros q Hq.
    rewrite power_minus_one; [reflexivity |].
    specialize (Hrange q Hq). lra.
  - apply Forall_map, Forall_forall. intros q Hq.
    specialize (Hrange q Hq).
    pose proof (inverse_increasing default_mmin 0 q
                  ltac:(lra) ltac:(lra) ltac:(lra)) as Hlow.
    pose proof (inverse_increasing default_mmin q qmax
                  ltac:(lra) ltac:(lra) ltac:(lra)) as Hhigh.
    replace (1 - 0) with 1 in Hlow by ring.
    rewrite Rinv_1, Rmult_1_r in Hlow.
    unfold Rdiv. split; assumption.
Qed.

Lemma map_Some_injective {A : Type} (l l' : list A) :
  map Some l = map Some l' -> l = l'.
Proof.
  revert l'. induction l as [| a l IH]; intros [| b l'] H;
    simpl in H; try discriminate; [reflexivity |].
  injection H as -> H. f_equal. now apply IH.
Qed.

(** With the defaults the masses run from [1e10] to [2e11], well inside
    the range of float32. *)
Lemma default_masses_normal (m : R) :
  default_mmin <= m <= default_mmin / (1 - default_qmax) ->
  float32_normal m.
Proof.
  unfold default_mmin, default_qmax. replace 10.0 with 10 by lra.
  rewrite pow10_as_integer. simpl Z.pow.
  replace (1 - 0.95) with (/ 20) by lra.
  unfold Rdiv. rewrite Rinv_inv. intros (Hlo & Hhi).
  apply float32_normal_moderate. split; lra.
Qed.

(** The shard the driver stores under [log_halo_masses] holds real
    numbers, in ascending order. *)
Lemma driver_log_halo_masses_are_real (COMM_WORLD : Comm) (num_halos : Z)
    (particle_comm : Comm) :
  (0 <= num_halos)%Z -> (rank particle_comm < size particle_comm)%nat ->
  exists logs,
    driver_log_halo_masses COMM_WORLD num_halos particle_comm
      = Ok (map Some logs) /\
    StronglySorted Rle logs.
Proof.
  intros Hn Hrank.
  assert (Hq : 0 <= default_qmax < 1) by (unfold default_qmax; lra).
  destruct (mhalo_array_default num_halos default_qmax Hq Hn)
    as (ms & Hm & _ & Hsorted & _).
  destruct (mhalo_array_default_range num_halos default_qmax Hq Hn)
    as (ms' & Hm' & Hrange).
  rewrite Hm in Hm'. injection Hm' as Hm'.
  apply map_Some_injective in Hm'. subst ms'.
  unfold driver_log_halo_masses.
  rewrite (load_halo_masses_shard COMM_WORLD _ _ _ _ (Some particle_comm)
             _ Hm) by exact Hrank.
  simpl comm_or_world. rewrite slice_map. simpl py.bind.
  set (shard := py.slice ms _ _).
  assert (Hshard_normal : Forall float32_normal shard).
  { apply Forall_slice. eapply Forall_impl; [| exact Hrange].
    apply default_masses_normal. }
  assert (Hshard_sorted : StronglySorted Rle shard)
    by (unfold shard, py.slice;
        now apply strongly_sorted_firstn, strongly_sorted_skipn).
  rewrite Forall_forall in Hshard_normal.
  exists (map log10_real shard). split.
  - f_equal. rewrite !map_map. apply map_ext_in. intros m Hm'.
    now apply log10_defined, Hshard_normal.
  - apply strongly_sorted_map; [exact Hshard_sorted |].
    intros x y Hx _ Hxy.
    apply log10_real_increasing; [| exact Hxy].
    now apply float32_normal_pos, Hshard_normal.
Qed.

(** ** The properties on sample inputs *)

(** Additivity on the sample model: the halos 12 and 11 on two workers
    against the array [11; 12] on one. *)
Lemma partial_sumstats_additive_over_shards_witness :
  0 < volume (dynamic_data sample_model) /\
  Permutation [11; 12] (concat [[12]; [11]]) /\
  total_sumstats
    (worker_partial_sumstats [-2; 0.2] sample_model [12])
    (map (worker_partial_sumstats [-2; 0.2] sample_model) [[11]])
  = worker_partial_sumstats [-2; 0.2] sample_model [11; 12].
Proof.
  assert (Hvol : 0 < volume (dynamic_data sample_model)) by (simpl; lra).
  assert (Hperm : Permutation [11; 12] (concat [[12]; [11]]))
    by (simpl; apply perm_swap).
  split; [exact Hvol |]. split; [exact Hperm |].
  exact (partial_sumstats_additive_over_shards [-2; 0.2]
           sample_model [12] [[11]] [11; 12] Hvol Hperm).
Defined.

(** The loss of the sample model at its own target. *)
Lemma loss_is_mean_squared_log_error_witness :
  (1 <= length [1; 2])%nat /\
  Forall float32_normal [1; 2] /\
  Forall float32_normal (target_sumstats (dynamic_data sample_model)) /\
  length [1; 2] = length (target_sumstats (dynamic_data sample_model)) /\
  fst (calc_loss_from_sumstats [1; 2] (@None unit) sample_model)
    = Ok (Some (mean_squared_log_error [1; 2]
                  (target_sumstats (dynamic_data sample_model)))) /\
  0 <= mean_squared_log_error [1; 2]
         (target_sumstats (dynamic_data sample_model)) /\
  ([1; 2] = target_sumstats (dynamic_data sample_model) ->
   fst (calc_loss_from_sumstats [1; 2] (@None unit) sample_model)
     = Ok (Some 0)).
Proof.
  assert (HK : (1 <= length [1; 2])%nat) by (simpl; lia).
  assert (Hpos : Forall float32_normal [1; 2])
    by (apply Forall_forall; intros x [<- | [<- | []]];
        apply float32_normal_moderate; lra).
  split; [exact HK |]. split; [exact Hpos |]. split; [exact Hpos |].
  split; [reflexivity |].
  exact (loss_is_mean_squared_log_error unit [1; 2] None sample_model
           HK Hpos Hpos eq_refl).
Defined.

(** Two objects with the same [dynamic_data] and different flags. *)
Lemma evaluation_is_deterministic_witness :
  dynamic_data sample_model
    = dynamic_data (mkMySMFModel (dynamic_data sample_model) true) /\
  fst (calc_partial_sumstats_from_params [-2; 0.2] sample_model)
    = fst (calc_partial_sumstats_from_params [-2; 0.2]
             (mkMySMFModel (dynamic_data sample_model) true)) /\
  fst (calc_loss_from_sumstats [1; 2] (@None unit) sample_model)
    = fst (calc_loss_from_sumstats [1; 2] (@None unit)
             (mkMySMFModel (dynamic_data sample_model) true)).
Proof.
  split; [reflexivity |].
  pose proof (evaluation_is_deterministic [-2; 0.2] [1; 2] unit
                None sample_model
                (mkMySMFModel (dynamic_data sample_model) true) eq_refl)
    as (Hpartial & Hloss & _).
  split; [exact Hpartial | exact Hloss].
Defined.

(** The sample model has two edges, so one value. *)
Lemma partial_sumstats_has_one_value_per_bin_witness :
  (1 <= length (smf_bin_edges (dynamic_data sample_model)))%nat /\
  exists smf,
    fst (calc_partial_sumstats_from_params
           (ParamTuple_astuple ParamTuple_default) sample_model) = Ok smf /\
    length smf = 1%nat.
Proof.
  assert (HB : (1 <= length (smf_bin_edges (dynamic_data sample_model)))%nat)
    by (simpl; lia).
  split; [exact HB |].
  destruct (partial_sumstats_has_one_value_per_bin
              ParamTuple_default sample_model [] 1%Z HB)
    as ((smf & Hsmf & Hlen & _) & _).
  exists smf. split; [exact Hsmf | exact Hlen].
Defined.



(** Five halos over two ranks: three on rank 0, two on rank 1. *)
Lemma load_halo_masses_shards_partition_the_array_witness :
  (1 <= 5)%Z /\ (default_slope + 1 <> 0)%Z /\ (1 <= 2)%nat /\
  exists (mhalo : list num) (shards : list (list num)),
    mhalo_array 5 default_slope default_mmin default_qmax = Ok mhalo /\
    length mhalo = 5%nat /\
    length shards = 2%nat /\
    load_halo_masses (mkComm 2 1) 5 default_slope default_mmin default_qmax
      None = Ok (nth 1 shards []) /\
    length (nth 0 shards []) = 3%nat /\
    length (nth 1 shards []) = 2%nat /\
    concat shards = mhalo.
Proof.
  assert (Hn : (1 <= 5)%Z) by lia.
  assert (Hslope : (default_slope + 1 <> 0)%Z) by (unfold default_slope; lia).
  assert (HS : (1 <= 2)%nat) by lia.
  split; [exact Hn |]. split; [exact Hslope |]. split; [exact HS |].
  destruct (load_halo_masses_shards_partition_the_array 5 default_slope
              default_mmin default_qmax 2 Hn Hslope HS)
    as (mhalo & shards & Hm & Hlen & Hshards & Hload & Hblock & _ & Hcat & _).
  exists mhalo, shards.
  split; [exact Hm |]. split; [exact Hlen |]. split; [exact Hshards |].
  split; [exact (Hload (mkComm 2 1) None eq_refl (Nat.lt_succ_diag_r 1)) |].
  destruct (Hblock 0%nat (Nat.lt_0_succ 1)) as (_ & Hlen0 & _).
  destruct (Hblock 1%nat (Nat.lt_succ_diag_r 1)) as (_ & Hlen1 & _).
  rewrite Hlen in Hlen0, Hlen1.
  split; [exact Hlen0 |]. split; [exact Hlen1 | exact Hcat].
Defined.

(** Five halos over two ranks with the default arguments. *)
Lemma halo_masses_ascending_across_ranks_witness :
  0 <= default_qmax < 1 /\ (0 <= 5)%Z /\ (1 <= 2)%nat /\
  exists masses : list (list R),
    length masses = 2%nat /\
    load_halo_masses (mkComm 2 0) 5 default_slope default_mmin default_qmax
      None = Ok (map Some (nth 0 masses [])) /\
    StronglySorted Rle (concat masses) /\
    (forall x, In x (nth 1 masses []) ->
               hd 0 (nth 0 masses []) <= x <= last (nth 1 masses []) 0).
Proof.
  assert (Hq : 0 <= default_qmax < 1) by (unfold default_qmax; lra).
  assert (Hn : (0 <= 5)%Z) by lia.
  assert (HS : (1 <= 2)%nat) by lia.
  split; [exact Hq |]. split; [exact Hn |]. split; [exact HS |].
  destruct (halo_masses_ascending_across_ranks 5 default_qmax 2 Hq Hn HS)
    as (masses & Hlen & Hload & Hsorted & _ & _ & Hfull).
  exists masses.
  split; [exact Hlen |].
  split; [exact (Hload (mkComm 2 0) None eq_refl (Nat.lt_0_succ 1)) |].
  split; [exact Hsorted |].
  intros x Hx.
  assert (H25 : (Z.of_nat 2 <= 5)%Z) by (simpl; lia).
  exact (proj2 (Hfull H25) 1%nat x (Nat.lt_succ_diag_r 1) Hx).
Defined.

(** * Further properties of the code *)

(** ** The distribution function: the median *)

Lemma gauss_integral_strictly_increasing (x y : R) :
  x < y -> gauss_integral x < gauss_integral y.
Proof.
  intros Hxy. rewrite <- (gauss_integral_chasles x y).
  pose proof (@RiemannInt_const_bound gauss x y (exp (- (x * x + y * y))) 1
                (gauss_integrable x y) (Rlt_le _ _ Hxy)) as Hb.
  destruct Hb as (Hlow & _).
  - intros t (Hxt & Hty). split; [| apply gauss_bounds].
    unfold gauss.
    assert (Ht : t * t <= x * x + y * y).
    { destruct (Rle_lt_dec 0 t); nra. }
    destruct Ht as [Hlt | Heq].
    + left. apply exp_increasing. lra.
    + rewrite Heq. lra.
  - pose proof (exp_pos (- (x * x + y * y))). nra.
Qed.


Lemma special_erf_strictly_increasing (x y : R) :
  x < y -> special.erf x < special.erf y.
Proof.
  intros Hxy. unfold special.erf.
  pose proof (sqrt_lt_R0 _ PI_RGT_0) as Hs.
  apply Rmult_lt_compat_l.
  - apply Rdiv_lt_0_compat; lra.
  - now apply gauss_integral_strictly_increasing.
Qed.


Lemma calc_smf_cdf_value (logsm mean sigma : R) :
  sigma <> 0 ->
  calc_smf_cdf logsm mean sigma = Some (cdf_value logsm mean sigma).
Proof. intros Hs. unfold cdf_value. now apply calc_smf_cdf_defined. Qed.

Lemma standardised_strictly_increasing (l1 l2 mean sigma : R) :
  0 < sigma -> l1 < l2 ->
  (l1 - mean) / (sqrt 2 * sigma) < (l2 - mean) / (sqrt 2 * sigma).
Proof.
  intros Hs Hl. pose proof (sqrt2_sigma_pos sigma Hs) as Hc.
  unfold Rdiv. apply Rmult_lt_compat_r; [| lra].
  now apply Rinv_0_lt_compat.
Qed.

Lemma cdf_value_strictly_increasing (l1 l2 mean sigma : R) :
  0 < sigma -> l1 < l2 -> cdf_value l1 mean sigma < cdf_value l2 mean sigma.
Proof.
  intros Hs Hl. unfold cdf_value.
  pose proof (special_erf_strictly_increasing _ _
                (standardised_strictly_increasing l1 l2 mean sigma Hs Hl)).
  lra.
Qed.




(** ** The bins as real numbers *)

Lemma sum_cdf_differences (p : ParamTuple) (lo hi : R) (halos : list R) :
  sigma_logsm p <> 0 ->
  jnp.sum (map (fun m =>
                  nsub (calc_smf_cdf hi (m + log_shmrat p) (sigma_logsm p))
                       (calc_smf_cdf lo (m + log_shmrat p) (sigma_logsm p)))
               halos)
  = Some (cumulative_count p hi halos - cumulative_count p lo halos).
Proof.
  intros Hs. unfold cumulative_count.
  induction halos as [| m halos IH]; simpl map.
  - simpl. f_equal. ring.
  - rewrite sum_cons, IH, !calc_smf_cdf_value by exact Hs.
    simpl. f_equal. ring.
Qed.

Lemma smf_bin_value_real (p : ParamTuple) (lo hi vol : R)
    (halos : list R) :
  sigma_logsm p <> 0 -> vol <> 0 -> hi - lo <> 0 ->
  smf_bin_value p lo hi vol halos
  = Some (smf_bin_real p vol halos (lo, hi)).
Proof.
  intros Hs Hv Hw. unfold smf_bin_value, smf_bin_real.
  rewrite sum_cdf_differences by exact Hs. simpl.
  rewrite rdiv_defined by exact Hv. simpl.
  now rewrite rdiv_defined by exact Hw.
Qed.

Lemma consecutive_widths (e0 : R) (es : list R) :
  Sorted Rlt (e0 :: es) ->
  Forall (fun b => snd b - fst b <> 0) (consecutive e0 es).
Proof.
  intros H. eapply Forall_impl; [| apply (consecutive_increasing e0 es H)].
  intros b Hb. lra.
Qed.

(** The vector of the method for parameters with a scatter, a volume
    and strictly increasing edges. *)
Lemma calc_partial_real (p : ParamTuple) (self : MySMFModel)
    (e0 : R) (es : list R) :
  smf_bin_edges (dynamic_data self) = e0 :: es ->
  sigma_logsm p <> 0 -> volume (dynamic_data self) <> 0 ->
  Sorted Rlt (e0 :: es) ->
  fst (calc_partial_sumstats_from_params (ParamTuple_astuple p) self)
  = Ok (map Some
          (map (smf_bin_real p (volume (dynamic_data self))
                  (log_halo_masses (dynamic_data self)))
               (consecutive e0 es))).
Proof.
  intros He Hs Hv Hsorted.
  rewrite (calc_partial_astuple p self e0 es He). f_equal.
  rewrite map_map. apply map_ext_in. intros [lo hi] Hb.
  pose proof (consecutive_widths e0 es Hsorted) as Hw.
  rewrite Forall_forall in Hw. specialize (Hw _ Hb).
  now apply smf_bin_value_real.
Qed.


Lemma cumulative_count_strictly_increasing (p : ParamTuple) (lo hi : R)
    (halos : list R) :
  0 < sigma_logsm p -> lo < hi -> halos <> [] ->
  cumulative_count p lo halos < cumulative_count p hi halos.
Proof.
  intros Hs Hl Hne. unfold cumulative_count.
  destruct halos as [| m0 halos]; [contradiction |]. clear Hne.
  revert m0. induction halos as [| m halos IH]; intros m0.
  - simpl.
    pose proof (cdf_value_strictly_increasing lo hi (m0 + log_shmrat p)
                  (sigma_logsm p) Hs Hl). lra.
  - specialize (IH m). cbn [map fold_right] in *.
    pose proof (cdf_value_strictly_increasing lo hi (m0 + log_shmrat p)
                  (sigma_logsm p) Hs Hl). lra.
Qed.

(** ** Sums over the bins *)






Lemma cumulative_count_increasing (p : ParamTuple) (lo hi : R)
    (halos : list R) :
  0 < sigma_logsm p -> lo <= hi ->
  cumulative_count p lo halos <= cumulative_count p hi halos.
Proof.
  intros Hs [Hl | ->]; [| lra].
  destruct halos as [| m halos]; [unfold cumulative_count; simpl; lra |].
  apply Rlt_le.
  now apply cumulative_count_strictly_increasing.
Qed.






(** ** A process without halos *)





(** ** How the first method fails *)

Lemma unpack_outcome (params : list R) :
  (exists p, ParamTuple_unpack params = Ok p /\ (length params <= 2)%nat) \/
  (ParamTuple_unpack params = Raise TypeError /\ (2 < length params)%nat).
Proof.
  destruct params as [| a [| b [| c rest]]]; simpl.
  - left. eexists. split; [reflexivity | lia].
  - left. eexists. split; [reflexivity | lia].
  - left. eexists. split; [reflexivity | lia].
  - right. split; [reflexivity | lia].
Qed.

(** X6: [calc_partial_sumstats_from_params] raises in two cases only:
    an [IndexError] exactly when there is no bin edge, and a [TypeError]
    exactly when there are at least two edges and more than two
    parameters.  With a single edge the loop body never runs, so the
    result is the empty vector even for parameters [ParamTuple] would
    reject. *)
Theorem partial_sumstats_failures
    (params : list R) (self : MySMFModel) :
  let outcome := fst (calc_partial_sumstats_from_params params self) in
  let edges := smf_bin_edges (dynamic_data self) in
  (outcome = Raise IndexError <-> edges = []) /\
  (outcome = Raise TypeError <->
   (2 <= length edges)%nat /\ (2 < length params)%nat) /\
  (forall e, outcome = Raise e -> e = IndexError \/ e = TypeError) /\
  (length edges = 1%nat -> outcome = Ok []).
Proof.
  cbv zeta. rewrite calc_partial_outcome.
  destruct (smf_bin_edges (dynamic_data self)) as [| e0 [| e1 es]].
  - split; [split; [reflexivity | reflexivity] |].
    split; [split; [discriminate | simpl; lia] |].
    split; [| discriminate].
    intros e H. injection H as <-. now left.
  - simpl. split; [split; discriminate |].
    split; [split; [discriminate | lia] |].
    split; [discriminate | reflexivity].
  - destruct (unpack_outcome params) as [(p & Hp & Hlen) | (Hp & Hlen)].
    + rewrite (smf_loop_unpacked params p _ _ _ Hp).
      split; [split; discriminate |].
      split; [split; [discriminate | lia] |].
      split; [discriminate | simpl; lia].
    + rewrite (smf_loop_raises params TypeError _ _ _ _ _ _ Hp).
      split; [split; discriminate |].
      split; [split; [intros _; simpl; lia | reflexivity] |].
      split; [| simpl; lia].
      intros e H. injection H as <-. now right.
Qed.

(** ** How [load_halo_masses] fails, and which ranks get halos *)

Lemma linspace_raises (start stop : R) (n : Z) :
  (n < 0)%Z -> jnp.linspace start stop n = Raise ValueError.
Proof.
  intros Hn. unfold jnp.linspace.
  now rewrite (proj2 (Z.ltb_lt _ _) Hn).
Qed.

Lemma load_halo_masses_cases (COMM_WORLD : Comm) (num_halos slope : Z)
    (mmin qmax : R) (comm : option Comm) :
  (rank (comm_or_world COMM_WORLD comm)
   < size (comm_or_world COMM_WORLD comm))%nat ->
  ((num_halos < 0)%Z /\
   load_halo_masses COMM_WORLD num_halos slope mmin qmax comm
     = Raise ValueError) \/
  ((0 <= num_halos)%Z /\ slope = (-1)%Z /\
   load_halo_masses COMM_WORLD num_halos slope mmin qmax comm
     = Raise ZeroDivisionError) \/
  ((0 <= num_halos)%Z /\ slope <> (-1)%Z /\
   exists shard,
     load_halo_masses COMM_WORLD num_halos slope mmin qmax comm = Ok shard /\
     length shard
       = shard_size (Z.to_nat num_halos)
           (size (comm_or_world COMM_WORLD comm))
           (rank (comm_or_world COMM_WORLD comm))).
Proof.
  intros Hrank.
  destruct (Z.ltb_spec num_halos 0) as [Hneg | Hn].
  - left. split; [exact Hneg |].
    unfold load_halo_masses, mhalo_array.
    now rewrite (linspace_raises _ _ _ Hneg).
  - right. destruct (Z.eq_dec slope (-1)) as [-> | Hslope].
    + left. split; [exact Hn |]. split; [reflexivity |].
      unfold load_halo_masses, mhalo_array.
      destruct (linspace_returns 0 qmax num_halos Hn) as (q & -> & _).
      reflexivity.
    + right. split; [exact Hn |]. split; [exact Hslope |].
      destruct (mhalo_array_returns num_halos slope mmin qmax Hn
                  ltac:(lia)) as (mhalo & Hm & Hlen).
      eexists. split.
      * exact (load_halo_masses_shard COMM_WORLD _ _ _ _ comm _ Hm Hrank).
      * rewrite length_slice, shard_offset_step, Hlen by
          (apply shard_offset_bound; lia).
        lia.
Qed.

(** X7: on a rank of a communicator ([rank < size]),
    [load_halo_masses] raises a [ValueError] exactly when [num_halos]
    is negative, a [ZeroDivisionError] exactly when [num_halos] is not
    negative and [slope] is [-1], and returns a shard in every other
    case; it raises nothing else. *)
Theorem load_halo_masses_failures (COMM_WORLD : Comm)
    (num_halos slope : Z) (mmin qmax : R) (comm : option Comm) :
  (rank (comm_or_world COMM_WORLD comm)
   < size (comm_or_world COMM_WORLD comm))%nat ->
  let outcome :=
    load_halo_masses COMM_WORLD num_halos slope mmin qmax comm in
  (outcome = Raise ValueError <-> (num_halos < 0)%Z) /\
  (outcome = Raise ZeroDivisionError <->
   (0 <= num_halos)%Z /\ slope = (-1)%Z) /\
  ((exists shard, outcome = Ok shard) <->
   (0 <= num_halos)%Z /\ slope <> (-1)%Z) /\
  (forall e, outcome = Raise e -> e = ValueError \/ e = ZeroDivisionError).
Proof.
  intros Hrank outcome. subst outcome.
  destruct (load_halo_masses_cases COMM_WORLD num_halos slope mmin qmax
              comm Hrank)
    as [(Hn & ->) | [(Hn & Hs & ->) | (Hn & Hs & shard & -> & _)]].
  - split; [split; [intros _; exact Hn | reflexivity] |].
    split; [split; [discriminate | lia] |].
    split; [split; [intros (s & H); discriminate | lia] |].
    intros e H. injection H as <-. now left.
  - split; [split; [discriminate | lia] |].
    split; [split; [intros _; now split | reflexivity] |].
    split; [split; [intros (s & H); discriminate | intros (_ & H); lia] |].
    intros e H. injection H as <-. now right.
  - split; [split; [discriminate | lia] |].
    split; [split; [discriminate | intros (_ & H); lia] |].
    split; [split; [intros _; now split | intros _; now exists shard] |].
    discriminate.
Qed.

Lemma load_halo_masses_failures_witness :
  let world := mkComm 2 0 in
  (rank (comm_or_world world None) < size (comm_or_world world None))%nat /\
  (load_halo_masses world 5 (-1) 1 0.5 None = Raise ZeroDivisionError <->
   (0 <= 5)%Z /\ (-1)%Z = (-1)%Z).
Proof.
  intros world.
  assert (Hrank : (rank (comm_or_world world None)
                   < size (comm_or_world world None))%nat) by (simpl; lia).
  split; [exact Hrank |].
  exact (proj1 (proj2 (load_halo_masses_failures world 5 (-1) 1 0.5 None
                         Hrank))).
Defined.

(** X8: when [load_halo_masses] returns, the shard of a rank is empty
    exactly when the rank is [num_halos] or more: with more ranks than
    halos the first [num_halos] ranks hold one halo each and the others
    none. *)
Theorem load_halo_masses_shard_is_empty_iff (COMM_WORLD : Comm)
    (num_halos slope : Z) (mmin qmax : R) (comm : option Comm) :
  (0 <= num_halos)%Z -> slope <> (-1)%Z ->
  (rank (comm_or_world COMM_WORLD comm)
   < size (comm_or_world COMM_WORLD comm))%nat ->
  exists shard,
    load_halo_masses COMM_WORLD num_halos slope mmin qmax comm = Ok shard /\
    (shard = [] <->
     (num_halos <= Z.of_nat (rank (comm_or_world COMM_WORLD comm)))%Z) /\
    ((Z.of_nat (size (comm_or_world COMM_WORLD comm)) > num_halos)%Z ->
     shard <> [] -> length shard = 1%nat).
Proof.
  intros Hn Hslope Hrank.
  destruct (load_halo_masses_cases COMM_WORLD num_halos slope mmin qmax
              comm Hrank)
    as [(Hneg & _) | [(_ & Hs & _) | (_ & _ & shard & Hshard & Hlen)]];
    [lia | contradiction |].
  exists shard. split; [exact Hshard |].
  set (n := Z.to_nat num_halos) in *.
  set (S := size (comm_or_world COMM_WORLD comm)) in *.
  set (r := rank (comm_or_world COMM_WORLD comm)) in *.
  assert (HS : (S <> 0)%nat) by lia.
  unfold shard_size in Hlen.
  pose proof (Nat.div_mod_eq n S) as Hdm.
  pose proof (Nat.mod_upper_bound n S HS) as Hmod.
  assert (Hsmall : (n < S)%nat -> (n / S = 0 /\ n mod S = n)%nat).
  { intros H. split; [now apply Nat.div_small | now apply Nat.mod_small]. }
  assert (Hlarge : (S <= n)%nat -> (1 <= n / S)%nat).
  { intros H. apply Nat.div_le_lower_bound; lia. }
  split; [split |].
  - intros ->. simpl in Hlen.
    destruct (Nat.ltb_spec r (n mod S)); [lia |].
    destruct (Nat.lt_ge_cases n S) as [Hlt | Hge].
    + destruct (Hsmall Hlt). lia.
    + specialize (Hlarge Hge). lia.
  - intros Hle. assert (Hnr : (n <= r)%nat) by lia.
    destruct (Hsmall ltac:(lia)) as (Hdiv & Hrem).
    rewrite Hdiv, Hrem in Hlen.
    destruct (Nat.ltb_spec r n); [lia |].
    destruct shard; [reflexivity | simpl in Hlen; lia].
  - intros Hmore Hne.
    destruct (Hsmall ltac:(lia)) as (Hdiv & Hrem).
    rewrite Hdiv, Hrem in Hlen.
    destruct (Nat.ltb_spec r n); [lia |].
    destruct shard; [contradiction | simpl in Hlen; lia].
Qed.

Lemma load_halo_masses_shard_is_empty_iff_witness :
  let world := mkComm 3 2 in
  (0 <= 2)%Z /\ (-2)%Z <> (-1)%Z /\
  (rank (comm_or_world world None) < size (comm_or_world world None))%nat /\
  exists shard,
    load_halo_masses world 2 (-2) 1 0.5 None = Ok shard /\
    (shard = [] <-> (2 <= Z.of_nat (rank (comm_or_world world None)))%Z) /\
    ((Z.of_nat (size (comm_or_world world None)) > 2)%Z ->
     shard <> [] -> length shard = 1%nat).
Proof.
  intros world.
  assert (Hn : (0 <= 2)%Z) by lia.
  assert (Hs : (-2)%Z <> (-1)%Z) by lia.
  assert (Hrank : (rank (comm_or_world world None)
                   < size (comm_or_world world None))%nat) by (simpl; lia).
  split; [exact Hn |]. split; [exact Hs |]. split; [exact Hrank |].
  exact (load_halo_masses_shard_is_empty_iff world 2 (-2) 1 0.5 None
           Hn Hs Hrank).
Defined.

(** ** The range of the masses *)

(** X9: with the default slope and minimum mass and [0 <= qmax <= 0.99],
    every halo mass [load_halo_masses] returns is a real number that
    lies, to within one percent, between [mmin] and the cutoff
    [mmin / (1 - qmax)] of the power law (the margin leaves room for
    the rounding of float32 arithmetic, which the model does not
    follow). *)
Theorem load_halo_masses_near_mmin_and_cutoff (COMM_WORLD : Comm)
    (num_halos : Z) (qmax : R) (comm : option Comm) :
  0 <= qmax <= 0.99 -> (0 <= num_halos)%Z ->
  (rank (comm_or_world COMM_WORLD comm)
   < size (comm_or_world COMM_WORLD comm))%nat ->
  exists shard,
    load_halo_masses COMM_WORLD num_halos default_slope default_mmin
      qmax comm = Ok (map Some shard) /\
    Forall (fun m => 0.99 * default_mmin <= m
                     <= 1.01 * (default_mmin / (1 - qmax))) shard.
Proof.
  intros Hq Hn Hrank.
  destruct (mhalo_array_default_range num_halos qmax ltac:(lra) Hn)
    as (ms & Hm & Hrange).
  rewrite (load_halo_masses_shard COMM_WORLD _ _ _ _ comm _ Hm Hrank).
  rewrite slice_map. eexists. split; [reflexivity |].
  apply Forall_slice. eapply Forall_impl; [| exact Hrange].
  intros m (Hlo & Hhi). pose proof default_mmin_pos as Hmmin.
  assert (Hcut : 0 < default_mmin / (1 - qmax))
    by (apply Rdiv_lt_0_compat; lra).
  split; lra.
Qed.

Lemma load_halo_masses_near_mmin_and_cutoff_witness :
  let world := mkComm 2 1 in
  0 <= default_qmax <= 0.99 /\ (0 <= 5)%Z /\
  (rank (comm_or_world world None) < size (comm_or_world world None))%nat /\
  exists shard,
    load_halo_masses world 5 default_slope default_mmin default_qmax None
      = Ok (map Some shard) /\
    Forall (fun m => 0.99 * default_mmin <= m
                     <= 1.01 * (default_mmin / (1 - default_qmax))) shard.
Proof.
  intros world.
  assert (Hq : 0 <= default_qmax <= 0.99) by (unfold default_qmax; lra).
  assert (Hn : (0 <= 5)%Z) by lia.
  assert (Hrank : (rank (comm_or_world world None)
                   < size (comm_or_world world None))%nat) by (simpl; lia).
  split; [exact Hq |]. split; [exact Hn |]. split; [exact Hrank |].
  exact (load_halo_masses_near_mmin_and_cutoff world 5 default_qmax
           None Hq Hn Hrank).
Defined.

Lemma log10_real_default_mmin : log10_real default_mmin = 10.
Proof.
  unfold log10_real, default_mmin.
  replace 10.0 with 10 by lra.
  rewrite ln_pow by lra.
  pose proof ln_10_pos. simpl INR. field. lra.
Qed.

Lemma log10_real_20_below_2 : log10_real 20 < 2.
Proof.
  unfold log10_real. pose proof ln_10_pos as H10.
  assert (H : ln 20 < ln (10 ^ 2)) by (apply ln_increasing; lra).
  rewrite ln_pow in H by lra. simpl INR in H.
  apply Rmult_lt_reg_r with (ln 10); [exact H10 |].
  unfold Rdiv. rewrite Rmult_assoc, Rinv_l by lra. lra.
Qed.

(** X10: the logarithmic halo masses the driver stores under
    [log_halo_masses] (default slope, minimum mass [10^10] and
    [qmax = 0.95]) are real numbers within [0.01] of the interval from
    [10] to [10 + log10 20], hence between [9.99] and [12] (the margin
    leaves room for the rounding of float32 arithmetic). *)
Theorem driver_log_halo_masses_near_10_and_11 (COMM_WORLD : Comm)
    (num_halos : Z) (particle_comm : Comm) :
  (0 <= num_halos)%Z -> (rank particle_comm < size particle_comm)%nat ->
  exists logs,
    driver_log_halo_masses COMM_WORLD num_halos particle_comm
      = Ok (map Some logs) /\
    Forall (fun l => 10 - 0.01 <= l <= 10 + log10_real 20 + 0.01 /\
                     l < 12) logs.
Proof.
  intros Hn Hrank.
  assert (Hq : 0 <= default_qmax < 1) by (unfold default_qmax; lra).
  destruct (mhalo_array_default_range num_halos default_qmax Hq Hn)
    as (ms & Hm & Hrange).
  unfold driver_log_halo_masses.
  rewrite (load_halo_masses_shard COMM_WORLD _ _ _ _ (Some particle_comm)
             _ Hm) by exact Hrank.
  simpl comm_or_world. rewrite slice_map. simpl py.bind.
  set (shard := py.slice ms _ _).
  assert (Hshard : Forall (fun m => default_mmin <= m
                                    <= default_mmin / (1 - default_qmax))
                     shard) by now apply Forall_slice.
  pose proof default_mmin_pos as Hmmin.
  rewrite Forall_forall in Hshard.
  exists (map log10_real shard). split.
  - f_equal. rewrite !map_map. apply map_ext_in. intros m Hm'.
    apply log10_defined, default_masses_normal. now apply Hshard.
  - apply Forall_map, Forall_forall. intros m Hm'.
    specialize (Hshard m Hm'). destruct Hshard as (Hlow & Hhigh).
    pose proof (log10_real_increasing default_mmin m Hmmin Hlow) as H1.
    pose proof (log10_real_increasing m _ ltac:(lra) Hhigh) as H2.
    assert (Hcut : default_mmin / (1 - default_qmax) = default_mmin * 20)
      by (unfold default_qmax; replace (1 - 0.95) with (/ 20) by lra;
          unfold Rdiv; now rewrite Rinv_inv).
    rewrite Hcut in H2.
    unfold log10_real at 2 in H2. rewrite ln_mult in H2 by lra.
    rewrite log10_real_default_mmin in H1.
    pose proof log10_real_default_mmin as H10.
    pose proof log10_real_20_below_2 as H20.
    unfold log10_real in *. pose proof ln_10_pos as Hln.
    replace ((ln default_mmin + ln 20) / ln 10)
      with (ln default_mmin / ln 10 + ln 20 / ln 10) in H2
      by (field; lra).
    lra.
Qed.

Lemma driver_log_halo_masses_near_10_and_11_witness :
  (0 <= 4)%Z /\ (rank (mkComm 2 1) < size (mkComm 2 1))%nat /\
  exists logs,
    driver_log_halo_masses (mkComm 4 3) 4 (mkComm 2 1)
      = Ok (map Some logs) /\
    Forall (fun l => 10 - 0.01 <= l <= 10 + log10_real 20 + 0.01 /\
                     l < 12) logs.
Proof.
  assert (Hn : (0 <= 4)%Z) by lia.
  assert (Hrank : (rank (mkComm 2 1) < size (mkComm 2 1))%nat)
    by (simpl; lia).
  split; [exact Hn |]. split; [exact Hrank |].
  exact (driver_log_halo_masses_near_10_and_11 (mkComm 4 3) 4
           (mkComm 2 1) Hn Hrank).
Defined.

(** ** The loss: failures and real values *)

Lemma broadcast2_cases (f : num -> num -> num) (xs ys : list num) :
  ((length xs = length ys \/ length xs = 1%nat \/ length ys = 1%nat) /\
   exists v, jnp.broadcast2 f xs ys = Ok v) \/
  (length xs <> length ys /\ length xs <> 1%nat /\ length ys <> 1%nat /\
   jnp.broadcast2 f xs ys = Raise TypeError).
Proof.
  unfold jnp.broadcast2.
  destruct (Nat.eqb_spec (length xs) (length ys)) as [Heq | Hne].
  - left. split; [now left | eexists; reflexivity].
  - destruct xs as [| x [| x' xs]], ys as [| y [| y' ys]]; simpl in *;
      try contradiction;
      first [ left; split; [lia | eexists; reflexivity]
            | right; repeat split; lia ].
Qed.

(** X11: [calc_loss_from_sumstats] raises exactly when the shapes cannot
    be broadcast, that is when [sumstats] and [target_sumstats] differ
    in length and neither has length one; the exception is then a
    [TypeError], and in every other case the method returns. *)
Theorem loss_failures (Aux : Type) (sumstats : list R)
    (aux : option Aux) (self : MySMFModel) :
  let outcome := fst (calc_loss_from_sumstats sumstats aux self) in
  let K := length sumstats in
  let T := length (target_sumstats (dynamic_data self)) in
  (outcome = Raise TypeError <-> K <> T /\ K <> 1%nat /\ T <> 1%nat) /\
  (forall e, outcome = Raise e -> e = TypeError) /\
  (K = T \/ K = 1%nat \/ T = 1%nat -> exists loss, outcome = Ok loss).
Proof.
  cbv zeta. rewrite calc_loss_unfolded.
  destruct (broadcast2_cases nsub (map jnp.log10 sumstats)
              (map jnp.log10 (target_sumstats (dynamic_data self))))
    as [(Hlen & v & ->) | (H1 & H2 & H3 & ->)];
    rewrite !length_map in *; simpl.
  - split; [split; [discriminate | lia] |].
    split; [discriminate |]. intros _. eexists. reflexivity.
  - split; [split; [intros _; repeat split; assumption | reflexivity] |].
    split; [intros e H; now injection H as <- | lia].
Qed.

Lemma sum_defined_inv (l : list num) (s : R) :
  jnp.sum l = Some s -> Forall (fun x => exists v, x = Some v) l.
Proof.
  revert s. induction l as [| x l IH]; intros s Hs; constructor.
  - rewrite sum_cons in Hs. destruct x as [v |]; [now exists v |].
    discriminate.
  - rewrite sum_cons in Hs. destruct x as [v |]; [| discriminate].
    destruct (jnp.sum l) as [s' |]; [now apply (IH s') | discriminate].
Qed.

Lemma log10_defined_inv (x v : R) : jnp.log10 x = Some v -> 0 < x.
Proof.
  unfold jnp.log10. pose proof float32_min_normal_pos.
  destruct (Rle_dec float32_min_normal x); [intros _; lra | discriminate].
Qed.

Lemma Forall_combine_split {A B : Type} (P : A -> Prop) (Q : B -> Prop)
    (s : list A) (t : list B) :
  length s = length t ->
  Forall (fun p => P (fst p) /\ Q (snd p)) (combine s t) ->
  Forall P s /\ Forall Q t.
Proof.
  revert t. induction s as [| a s IH]; intros [| b t] Hlen H;
    simpl in *; try discriminate.
  - split; constructor.
  - inversion H as [| ? ? (Ha & Hb) Hrest]; subst.
    destruct (IH t ltac:(lia) Hrest). split; constructor; assumption.
Qed.

(** X12: for [sumstats] and [target_sumstats] of one length, the loss
    is a real number only if the two have at least one entry and all
    their entries are strictly positive: a zero or negative entry on
    either side, or empty vectors, leave it without a real value (nan or
    an infinity in the program). *)
Theorem loss_is_real_only_for_positive_entries (Aux : Type)
    (sumstats : list R) (aux : option Aux) (self : MySMFModel) :
  length sumstats = length (target_sumstats (dynamic_data self)) ->
  (exists v,
      fst (calc_loss_from_sumstats sumstats aux self) = Ok (Some v)) ->
  (1 <= length sumstats)%nat /\
  Forall (fun x => 0 < x) sumstats /\
  Forall (fun x => 0 < x) (target_sumstats (dynamic_data self)).
Proof.
  intros Hlen (v & Hv). rewrite calc_loss_unfolded in Hv.
  rewrite broadcast2_same_length in Hv by (now rewrite !length_map).
  simpl in Hv. injection Hv as Hv. unfold jnp.mean in Hv.
  destruct (jnp.sum _) as [s |] eqn:Hsum; [| discriminate].
  simpl in Hv. unfold rdiv in Hv.
  destruct (Req_dec_T _ 0) as [Hz | Hnz]; [discriminate |].
  rewrite !length_map, length_combine, !length_map, <- Hlen,
    Nat.min_id in Hnz.
  split.
  - destruct sumstats; [simpl in Hnz; contradiction | simpl; lia].
  - apply sum_defined_inv in Hsum.
    rewrite combine_map_both, !map_map in Hsum.
    rewrite Forall_map in Hsum.
    apply (Forall_combine_split _ _ _ _ Hlen).
    eapply Forall_impl; [| exact Hsum].
    intros [a b] (w & Hw). simpl in *.
    destruct (jnp.log10 a) as [la |] eqn:Ha; [| discriminate].
    destruct (jnp.log10 b) as [lb |] eqn:Hb; [| discriminate].
    split; eapply log10_defined_inv; eassumption.
Qed.

(** The loss of the sample model at its own target is a real number. *)
Lemma loss_is_real_only_for_positive_entries_witness :
  length [1; 2] = length (target_sumstats (dynamic_data sample_model)) /\
  (exists v, fst (@calc_loss_from_sumstats unit [1; 2] None sample_model)
             = Ok (Some v)) /\
  (1 <= length [1; 2])%nat /\
  Forall (fun x => 0 < x) [1; 2] /\
  Forall (fun x => 0 < x) (target_sumstats (dynamic_data sample_model)).
Proof.
  assert (Hlen : length [1; 2]
                 = length (target_sumstats (dynamic_data sample_model)))
    by reflexivity.
  assert (Hnormal : Forall float32_normal [1; 2])
    by (apply Forall_forall; intros x [<- | [<- | []]];
        apply float32_normal_moderate; lra).
  assert (Hreal : exists v,
             fst (@calc_loss_from_sumstats unit [1; 2] None sample_model)
             = Ok (Some v)).
  { rewrite (calc_loss_outcome [1; 2] None sample_model Hnormal Hnormal
               Hlen).
    rewrite rdiv_defined by (simpl; lra). eexists. reflexivity. }
  split; [exact Hlen |]. split; [exact Hreal |].
  exact (loss_is_real_only_for_positive_entries unit [1; 2] None
           sample_model Hlen Hreal).
Defined.

(** ** The driver's model *)

Lemma driver_data_fields (halos : list R) (num_halos : Z) :
  exists d e0 es,
    data halos num_halos = Ok d /\
    log_halo_masses d = halos /\
    volume d = 10.0 * IZR num_halos /\
    smf_bin_edges d = e0 :: es /\
    Sorted Rlt (e0 :: es) /\
    length es = 10%nat /\
    length (target_sumstats d) = 10%nat.
Proof.
  unfold data, jnp.linspace. simpl.
  eexists. eexists. eexists. split; [reflexivity |]. simpl.
  split; [reflexivity |]. split; [reflexivity |]. split; [reflexivity |].
  split; [| split; reflexivity].
  repeat (constructor; [| first [constructor; lra | constructor]]).
  constructor.
Qed.

Lemma smf_bin_real_nonneg (p : ParamTuple) (vol : R) (halos : list R)
    (lo hi : R) :
  0 < sigma_logsm p -> 0 < vol -> lo < hi ->
  0 <= smf_bin_real p vol halos (lo, hi).
Proof.
  intros Hs Hv Hl. unfold smf_bin_real. simpl.
  pose proof (cumulative_count_increasing p lo hi halos Hs
                (Rlt_le _ _ Hl)) as Hinc.
  unfold Rdiv. apply Rmult_le_pos; [apply Rmult_le_pos |].
  - lra.
  - left. now apply Rinv_0_lt_compat.
  - left. apply Rinv_0_lt_compat. lra.
Qed.

Lemma search_box_sigma (p : ParamTuple) :
  in_search_box p -> 1e-3 <= sigma_logsm p <= 3.0.
Proof.
  intros (Hlow & Hhigh). unfold swarm_xlow, swarm_xhigh,
    ParamTuple_astuple in *.
  inversion Hlow as [| ? ? ? ? _ Hlow']; subst.
  inversion Hlow' as [| ? ? ? ? Hl _]; subst.
  inversion Hhigh as [| ? ? ? ? _ Hhigh']; subst.
  inversion Hhigh' as [| ? ? ? ? Hh _]; subst.
  split; assumption.
Qed.

(** X16: in the driver, for [--num-halos] at least one and parameters
    in the box the swarm searches, every process builds a model on which
    [calc_partial_sumstats_from_params] returns ten real numbers, none
    negative, as many as the target has entries. *)
Theorem driver_model_partial_sumstats_are_real
    (COMM_WORLD particle_comm : Comm) (num_halos : Z) (p : ParamTuple) :
  (rank particle_comm < size particle_comm)%nat ->
  (1 <= num_halos)%Z ->
  in_search_box p ->
  exists (logs : list R) (d : dict) (smf : list R),
    driver_log_halo_masses COMM_WORLD num_halos particle_comm
      = Ok (map Some logs) /\
    data logs num_halos = Ok d /\
    fst (calc_partial_sumstats_from_params (ParamTuple_astuple p)
           (MySMFModel_init d)) = Ok (map Some smf) /\
    length smf = 10%nat /\
    length smf = length (target_sumstats d) /\
    Forall (fun x => 0 <= x) smf.
Proof.
  intros Hrank Hhalos Hbox.
  destruct (search_box_sigma p Hbox) as (Hs & _).
  destruct (driver_log_halo_masses_are_real COMM_WORLD num_halos
              particle_comm ltac:(lia) Hrank) as (logs & Hlogs & _).
  destruct (driver_data_fields logs num_halos)
    as (d & e0 & es & Hd & Hm & Hv & He & Hsorted & Hes & Ht).
  assert (Hvol : 0 < volume (dynamic_data (MySMFModel_init d))).
  { simpl. rewrite Hv. assert (0 < IZR num_halos)
      by (apply IZR_lt; lia). lra. }
  exists logs, d. eexists.
  split; [exact Hlogs |]. split; [exact Hd |]. split.
  - apply (calc_partial_real p (MySMFModel_init d) e0 es He);
      [lra | lra | exact Hsorted].
  - rewrite !length_map, length_consecutive.
    split; [exact Hes |]. split; [congruence |].
    apply Forall_map.
    eapply Forall_impl; [| apply (consecutive_increasing e0 es Hsorted)].
    intros [lo hi] Hlt. simpl in Hlt.
    apply smf_bin_real_nonneg; [lra | exact Hvol | exact Hlt].
Qed.

Lemma driver_model_partial_sumstats_are_real_witness :
  (rank (mkComm 2 1) < size (mkComm 2 1))%nat /\
  (1 <= 4)%Z /\
  in_search_box ParamTuple_default /\
  exists (logs : list R) (d : dict) (smf : list R),
    driver_log_halo_masses (mkComm 4 3) 4 (mkComm 2 1)
      = Ok (map Some logs) /\
    data logs 4 = Ok d /\
    fst (calc_partial_sumstats_from_params
           (ParamTuple_astuple ParamTuple_default)
           (MySMFModel_init d)) = Ok (map Some smf) /\
    length smf = 10%nat /\
    length smf = length (target_sumstats d) /\
    Forall (fun x => 0 <= x) smf.
Proof.
  assert (Hrank : (rank (mkComm 2 1) < size (mkComm 2 1))%nat)
    by (simpl; lia).
  assert (Hhalos : (1 <= 4)%Z) by lia.
  assert (Hbox : in_search_box ParamTuple_default).
  { split; unfold swarm_xlow, swarm_xhigh, ParamTuple_astuple; simpl;
      (constructor; [lra | constructor; [lra | constructor]]). }
  split; [exact Hrank |]. split; [exact Hhalos |]. split; [exact Hbox |].
  exact (driver_model_partial_sumstats_are_real (mkComm 4 3) (mkComm 2 1)
           4 ParamTuple_default Hrank Hhalos Hbox).
Defined.

(** ** The bin centres of the report *)

Lemma combine_removelast_tl (e0 : R) (es : list R) :
  combine (removelast (e0 :: es)) es = consecutive e0 es.
Proof.
  revert e0. induction es as [| e1 es IH]; intros e0; [reflexivity |].
  change (removelast (e0 :: e1 :: es)) with (e0 :: removelast (e1 :: es)).
  cbn [combine consecutive]. now rewrite IH.
Qed.

Lemma smf_bin_cens_consecutive (e0 : R) (es : list R) :
  smf_bin_cens (e0 :: es)
  = map (fun ab => 0.5 * (fst ab + snd ab)) (consecutive e0 es).
Proof.
  unfold smf_bin_cens. cbn [tl]. now rewrite combine_removelast_tl.
Qed.

Lemma length_partial_sumstats (params : list R) (self : MySMFModel)
    (smf : list num) :
  fst (calc_partial_sumstats_from_params params self) = Ok smf ->
  length smf = (length (smf_bin_edges (dynamic_data self)) - 1)%nat.
Proof.
  rewrite calc_partial_outcome.
  destruct (smf_bin_edges (dynamic_data self)) as [| e0 es];
    [discriminate |].
  destruct (unpack_outcome params) as [(p & Hp & _) | (Hp & _)].
  - rewrite (smf_loop_unpacked params p _ _ _ Hp). intros H.
    injection H as <-. simpl.
    rewrite length_map, length_consecutive. lia.
  - destruct es as [| e1 es].
    + simpl. intros H. now injection H as <-.
    + rewrite (smf_loop_raises params TypeError _ _ _ _ _ _ Hp).
      discriminate.
Qed.

(** X17: the bin centres the report plots the SMF against are as many
    as the values [calc_partial_sumstats_from_params] returns, and for
    strictly increasing edges each centre lies strictly inside the bin
    of the value it is plotted with. *)
Theorem smf_bin_cens_match_the_sumstats (params : list R)
    (self : MySMFModel) (smf : list num) :
  fst (calc_partial_sumstats_from_params params self) = Ok smf ->
  let edges := smf_bin_edges (dynamic_data self) in
  length (smf_bin_cens edges) = length smf /\
  (Sorted Rlt edges ->
   Forall2 (fun cen bin => fst bin < cen < snd bin)
           (smf_bin_cens edges) (combine edges (tl edges))).
Proof.
  intros Hsmf edges. subst edges.
  pose proof (length_partial_sumstats params self smf Hsmf) as Hlen.
  destruct (smf_bin_edges (dynamic_data self)) as [| e0 es] eqn:He.
  - rewrite calc_partial_outcome, He in Hsmf. discriminate.
  - rewrite smf_bin_cens_consecutive. split.
    + rewrite length_map, length_consecutive, Hlen. simpl. lia.
    + intros Hsorted. cbn [tl]. rewrite <- consecutive_combine.
      pose proof (consecutive_increasing e0 es Hsorted) as Hinc.
      induction Hinc as [| [lo hi] bins Hb _ IH]; simpl;
        constructor; [simpl in *; lra | exact IH].
Qed.

Lemma smf_bin_cens_match_the_sumstats_witness :
  exists smf,
    fst (calc_partial_sumstats_from_params [-2; 0.2] sample_model)
      = Ok smf /\
    length (smf_bin_cens (smf_bin_edges (dynamic_data sample_model)))
      = length smf /\
    smf_bin_cens (smf_bin_edges (dynamic_data sample_model))
      = [0.5 * (9 + 10)].
Proof.
  eexists. split; [reflexivity |]. split; [| reflexivity].
  exact (proj1 (smf_bin_cens_match_the_sumstats [-2; 0.2] sample_model _
                  eq_refl)).
Defined.

(** ** The two edges of a bin *)

Lemma sum_of_opposites {A : Type} (g h : A -> num) (l : list A) :
  jnp.sum (map (fun m => nsub (g m) (h m)) l)
  = lift1 Ropp (jnp.sum (map (fun m => nsub (h m) (g m)) l)).
Proof.
  induction l as [| m l IH]; simpl map.
  - simpl. f_equal. ring.
  - rewrite !sum_cons, IH.
    destruct (g m) as [a |], (h m) as [b |],
      (jnp.sum (map (fun m0 => nsub (h m0) (g m0)) l)) as [s |];
      cbn [nsub nadd lift1 lift2]; try reflexivity.
    f_equal. ring.
Qed.

Lemma rdiv_of_opposites (x y : R) : rdiv (- x) (- y) = rdiv x y.
Proof.
  unfold rdiv.
  destruct (Req_dec_T (- y) 0) as [H1 | H1],
           (Req_dec_T y 0) as [H2 | H2];
    try reflexivity; try (exfalso; lra).
  f_equal. field. exact H2.
Qed.

(** X18: [calc_smf_bin] does not depend on the order of the two edges:
    swapping [logsm_low] and [logsm_high] changes the sign of both the
    summed difference and the bin width, and the quotient stays the
    same, for all parameters, volumes and halo masses. *)
Theorem calc_smf_bin_symmetric_in_the_edges (params : list R)
    (logsm_low logsm_high volume : R) (log_halo_masses : list R) :
  calc_smf_bin params logsm_high logsm_low volume log_halo_masses
  = calc_smf_bin params logsm_low logsm_high volume log_halo_masses.
Proof.
  destruct (unpack_outcome params) as [(p & Hp & _) | (Hp & _)].
  - rewrite !(calc_smf_bin_unpacked _ p _ _ _ _ Hp). f_equal.
    unfold smf_bin_value. rewrite sum_of_opposites.
    destruct (jnp.sum _) as [s |]; [| reflexivity].
    cbn [lift1 ndiv]. unfold rdiv.
    destruct (Req_dec_T volume 0) as [Hv | Hv]; [reflexivity |].
    cbn [ndiv].
    replace (- s / volume) with (- (s / volume)) by (field; exact Hv).
    replace (logsm_low - logsm_high) with (- (logsm_high - logsm_low))
      by ring.
    apply rdiv_of_opposites.
  - now rewrite !(calc_smf_bin_raises _ TypeError _ _ _ _ Hp).
Qed.

(** ** The distribution function: symmetry and density *)











